(** * A string queue on a doubly-linked list: queue.c

    Shallow embedding of [queue.c] over an explicit heap.  The C functions
    become computations in a small state-and-fault monad: the state is the
    heap (queue structures, list elements, character blocks and the outcome
    of the coming [malloc] calls), a fault is any step that C leaves
    undefined (a null or dangling dereference, a write or read past the end
    of an array, an invalid [free]).

    A string argument [s] is the caller's character array, a buffer [buf]
    is handed in and handed back. *)

From Stdlib Require Import ZArith Lia.
From Stdlib Require Import Init.Byte.
From stdpp Require Import base option list gmap fin_maps.

Local Open Scope Z_scope.

(** ** Memory *)

Definition loc := positive.

(** A pointer is [None] for [NULL]. *)
Definition ptr := option loc.

(** Modelled from the spec: [queue.h], which declares [list_ele_t], is not
    among the sources.  The fields are the ones [queue.c] uses: the
    element's string and its two links. *)
Record list_ele_t := mk_ele { value : ptr; next : ptr; prev : ptr }.

(** Modelled from the spec: [queue.h], which declares [queue_t], is not
    among the sources.  The fields are the ones [queue.c] touches; the spec
    gives the queue "a non-negative element count", so [size] is an integer
    without a width of its own and the cast to [size_t] in [queue_size] is
    the identity on it. *)
Record queue_t := mk_queue { head : ptr; tail : ptr; size : Z }.

Record heap := mk_heap {
  queues : gmap loc queue_t;
  nodes : gmap loc list_ele_t;
  strs : gmap loc (list byte);
  (** the outcome of the next calls to [malloc]: [false] is a failed
      allocation; past the end of the list every allocation succeeds *)
  oracle : list bool
}.

Definition set_queues (f : gmap loc queue_t → gmap loc queue_t) (h : heap) : heap :=
  mk_heap (f (queues h)) (nodes h) (strs h) (oracle h).
Definition set_nodes (f : gmap loc list_ele_t → gmap loc list_ele_t) (h : heap) : heap :=
  mk_heap (queues h) (f (nodes h)) (strs h) (oracle h).
Definition set_strs (f : gmap loc (list byte) → gmap loc (list byte)) (h : heap) : heap :=
  mk_heap (queues h) (nodes h) (f (strs h)) (oracle h).
Definition set_oracle (o : list bool) (h : heap) : heap :=
  mk_heap (queues h) (nodes h) (strs h) o.

Definition with_value (v : ptr) (e : list_ele_t) := mk_ele v (next e) (prev e).
Definition with_next (v : ptr) (e : list_ele_t) := mk_ele (value e) v (prev e).
Definition with_prev (v : ptr) (e : list_ele_t) := mk_ele (value e) (next e) v.
Definition with_head (v : ptr) (q : queue_t) := mk_queue v (tail q) (size q).
Definition with_tail (v : ptr) (q : queue_t) := mk_queue (head q) v (size q).
Definition with_size (v : Z) (q : queue_t) := mk_queue (head q) (tail q) v.

(** ** The monad *)

Inductive result (A : Type) : Type :=
| Ret (a : A) (h : heap)
| Crash
| OutOfFuel.
Arguments Ret {A} a h.
Arguments Crash {A}.
Arguments OutOfFuel {A}.

Definition M (A : Type) : Type := heap → result A.

Definition ret {A} (a : A) : M A := λ h, Ret a h.
Definition bind {A B} (m : M A) (k : A → M B) : M B :=
  λ h, match m h with
       | Ret a h' => k a h'
       | Crash => Crash
       | OutOfFuel => OutOfFuel
       end.
Definition crash {A} : M A := λ _, Crash.
Definition out_of_fuel {A} : M A := λ _, OutOfFuel.

Notation "'let*' x ':=' m 'in' k" := (bind m (λ x, k))
  (at level 10, x name, m at level 100, k at level 200).
Notation "'run' m 'in' k" := (bind m (λ _, k))
  (at level 10, m at level 100, k at level 200).

(** ** Heap accesses *)

(** [*p] for a pointer that must not be null. *)
Definition deref (p : ptr) : M loc :=
  match p with Some l => ret l | None => crash end.

Definition load_q {A} (f : queue_t → A) (q : loc) : M A :=
  λ h, match queues h !! q with Some Q => Ret (f Q) h | None => Crash end.
Definition store_q (f : queue_t → queue_t) (q : loc) : M unit :=
  λ h, match queues h !! q with
       | Some Q => Ret tt (set_queues <[q := f Q]> h)
       | None => Crash
       end.
Definition load_e {A} (f : list_ele_t → A) (e : loc) : M A :=
  λ h, match nodes h !! e with Some E => Ret (f E) h | None => Crash end.
Definition store_e (f : list_ele_t → list_ele_t) (e : loc) : M unit :=
  λ h, match nodes h !! e with
       | Some E => Ret tt (set_nodes <[e := f E]> h)
       | None => Crash
       end.
Definition load_s (s : loc) : M (list byte) :=
  λ h, match strs h !! s with Some b => Ret b h | None => Crash end.
Definition store_s (s : loc) (b : list byte) : M unit :=
  λ h, match strs h !! s with
       | Some _ => Ret tt (set_strs <[s := b]> h)
       | None => Crash
       end.

(** Whether the next [malloc] succeeds. *)
Definition pop_oracle (o : list bool) : bool * list bool :=
  match o with
  | [] => (true, [])
  | b :: o' => (b, o')
  end.
Definition next_alloc : M bool :=
  λ h, Ret (fst (pop_oracle (oracle h))) (set_oracle (snd (pop_oracle (oracle h))) h).

(** [malloc(sizeof(queue_t))]: a fresh address; the fields are written by
    the caller before they are read. *)
Definition malloc_queue : M ptr :=
  let* ok := next_alloc in
  if ok : bool then
    λ h, let l := fresh (dom (queues h)) in
         Ret (Some l) (set_queues <[l := mk_queue None None 0]> h)
  else ret None.

(** [malloc(sizeof(list_ele_t))]. *)
Definition malloc_ele : M ptr :=
  let* ok := next_alloc in
  if ok : bool then
    λ h, let l := fresh (dom (nodes h)) in
         Ret (Some l) (set_nodes <[l := mk_ele None None None]> h)
  else ret None.

(** [malloc(n)] for a character array of [n] bytes. *)
Definition malloc_chars (n : nat) : M ptr :=
  let* ok := next_alloc in
  if ok : bool then
    λ h, let l := fresh (dom (strs h)) in
         Ret (Some l) (set_strs <[l := replicate n x00]> h)
  else ret None.

(** [free(p)]: nothing for [NULL], a fault for an address that is not
    allocated. *)
Definition free_ele (p : ptr) : M unit :=
  match p with
  | None => ret tt
  | Some l => λ h, match nodes h !! l with
                   | Some _ => Ret tt (set_nodes (delete l) h)
                   | None => Crash
                   end
  end.
Definition free_chars (p : ptr) : M unit :=
  match p with
  | None => ret tt
  | Some l => λ h, match strs h !! l with
                   | Some _ => Ret tt (set_strs (delete l) h)
                   | None => Crash
                   end
  end.

(** ** <string.h> on character arrays *)

Definition is_nul (b : byte) : bool := Byte.eqb b x00.

(** The C string held by an array: the bytes before the first NUL. *)
Fixpoint cstring (s : list byte) : list byte :=
  match s with
  | [] => []
  | b :: s' => if is_nul b then [] else b :: cstring s'
  end.

(** [strlen(s)]; reading past the end of an array without a NUL is a
    fault. *)
Fixpoint strlen (s : list byte) : option nat :=
  match s with
  | [] => None
  | b :: s' => if is_nul b then Some 0%nat else S <$> strlen s'
  end.

(** [strcpy(dst, src)]: the bytes of [src] up to and with its NUL. *)
Fixpoint strcpy (dst src : list byte) : option (list byte) :=
  match src with
  | [] => None
  | b :: src' =>
    match dst with
    | [] => None
    | _ :: dst' =>
      if is_nul b then Some (x00 :: dst')
      else (b ::.) <$> strcpy dst' src'
    end
  end.

(** [strncpy(dst, src, n)]: exactly [n] bytes are written, the bytes of
    [src] and then NULs once its NUL is reached ([src] stays on its NUL). *)
Fixpoint strncpy (dst src : list byte) (n : Z) : option (list byte) :=
  if n <=? 0 then Some dst
  else match dst with
       | [] => None
       | _ :: dst' =>
         match src with
         | [] => None
         | b :: src' =>
           if is_nul b then (x00 ::.) <$> strncpy dst' src (n - 1)
           else (b ::.) <$> strncpy dst' src' (n - 1)
         end
       end.

(** [a[i] = b]. *)
Definition store_byte (a : list byte) (i : Z) (b : byte) : option (list byte) :=
  if (0 <=? i) && (i <? Z.of_nat (length a)) then Some (<[Z.to_nat i := b]> a)
  else None.

Definition lift {A} (o : option A) : M A :=
  match o with Some a => ret a | None => crash end.

(** [size_t] arithmetic: unsigned, and 64 bits wide as on the x86-64
    machines the code is written for. *)
Definition size_max : Z := 2 ^ 64.
Definition size_sub (a b : Z) : Z := (a - b) mod size_max.

(** ** queue.c *)

(** [strcpy(dst, s)] into the block at [dst]. *)
Definition do_strcpy (dst : loc) (s : list byte) : M unit :=
  let* old := load_s dst in
  let* new := lift (strcpy old s) in
  store_s dst new.

(** [queue_new], lines 24-34. *)
Definition queue_new : M ptr :=
  let* q := malloc_queue in
  match q with
  | None => ret None
  | Some ql =>
    run store_q (with_head None) ql in
    run store_q (with_tail None) ql in
    run store_q (with_size 0) ql in
    ret q
  end.

(** [queue_insert_head], lines 79-113. *)
Definition queue_insert_head (q : ptr) (s : list byte) : M bool :=
  match q with
  | None => ret false
  | Some ql =>
    let* newh := malloc_ele in
    match newh with
    | None => ret false
    | Some nh =>
      (* newh->value = malloc(strlen(s) + 1) *)
      let* len := lift (strlen s) in
      let* v := malloc_chars (S len) in
      run store_e (with_value v) nh in
      match v with
      | None =>
        run free_ele newh in
        ret false
      | Some vl =>
        run do_strcpy vl s in
        (* newh->next = q->head; newh->prev = NULL *)
        let* hd := load_q head ql in
        run store_e (with_next hd) nh in
        run store_e (with_prev None) nh in
        (* q->head->prev = newh, or q->tail = newh on an empty queue *)
        run (match hd with
             | Some hl => store_e (with_prev newh) hl
             | None => store_q (with_tail newh) ql
             end) in
        run store_q (with_head newh) ql in
        (* q->size++ *)
        let* sz := load_q size ql in
        run store_q (with_size (sz + 1)) ql in
        ret true
      end
    end
  end.

(** [queue_insert_tail], lines 127-164. *)
Definition queue_insert_tail (q : ptr) (s : list byte) : M bool :=
  match q with
  | None => ret false
  | Some ql =>
    let* newt := malloc_ele in
    match newt with
    | None => ret false
    | Some nt =>
      (* news = malloc(strlen(s) + 1) *)
      let* len := lift (strlen s) in
      let* news := malloc_chars (S len) in
      match news with
      | None =>
        run free_ele newt in
        ret false
      | Some vl =>
        run do_strcpy vl s in
        run store_e (with_value news) nt in
        (* newt->prev = q->tail; newt->next = NULL *)
        let* tl := load_q tail ql in
        run store_e (with_prev tl) nt in
        run store_e (with_next None) nt in
        (* q->tail->next = newt, or q->head = newt on an empty queue *)
        run (match tl with
             | Some t => store_e (with_next newt) t
             | None => store_q (with_head newt) ql
             end) in
        run store_q (with_tail newt) ql in
        let* sz := load_q size ql in
        run store_q (with_size (sz + 1)) ql in
        ret true
      end
    end
  end.

(** [queue_remove_head], lines 183-212.  The buffer [buf] is the caller's
    array, handed in and handed back; [None] is a null [buf]. *)
Definition queue_remove_head (q : ptr) (buf : option (list byte)) (bufsize : Z)
  : M (bool * option (list byte)) :=
  match q with
  | None => ret (false, buf)
  | Some ql =>
    let* sz := load_q size ql in
    if sz =? 0 then ret (false, buf)
    else
      (* old_head = q->head; q->head = q->head->next *)
      let* old_head := load_q head ql in
      let* oh := deref old_head in
      let* nx := load_e next oh in
      run store_q (with_head nx) ql in
      (* strncpy(buf, old_head->value, bufsize - 1); buf[bufsize - 1] = 0 *)
      let* v := load_e value oh in
      let* buf' :=
        match buf, v with
        | Some b, Some vl =>
          let* src := load_s vl in
          let* b1 := lift (strncpy b src (size_sub bufsize 1)) in
          let* b2 := lift (store_byte b1 (size_sub bufsize 1) x00) in
          ret (Some b2)
        | _, _ => ret buf
        end in
      run free_chars v in
      run free_ele old_head in
      (* q->head->prev = NULL when there is a new head *)
      let* hd := load_q head ql in
      run (match hd with
           | Some hl => store_e (with_prev None) hl
           | None => ret tt
           end) in
      (* q->size-- *)
      let* sz' := load_q size ql in
      run store_q (with_size (sz' - 1)) ql in
      (* q->tail = NULL when the queue is now empty *)
      let* hd' := load_q head ql in
      run (match hd' with
           | None => store_q (with_tail None) ql
           | Some _ => ret tt
           end) in
      ret (true, buf')
  end.

(** [queue_size], lines 224-231. *)
Definition queue_size (q : ptr) : M Z :=
  match q with
  | None => ret 0
  | Some ql => load_q size ql
  end.

(** The loop of [queue_reverse], lines 252-258; [fuel] bounds the number
    of iterations. *)
Fixpoint reverse_loop (fuel : nat) (current : ptr) : M unit :=
  match current with
  | None => ret tt
  | Some c =>
    match fuel with
    | O => out_of_fuel
    | S fuel' =>
      (* tmp = current->next; current->next = current->prev;
         current->prev = tmp; current = tmp *)
      let* tmp := load_e next c in
      let* pv := load_e prev c in
      run store_e (with_next pv) c in
      run store_e (with_prev tmp) c in
      reverse_loop fuel' tmp
    end
  end.

(** [queue_reverse], lines 242-263. *)
Definition queue_reverse (fuel : nat) (q : ptr) : M unit :=
  match q with
  | None => ret tt
  | Some ql =>
    let* hd := load_q head ql in
    match hd with
    | None => ret tt
    | Some hl =>
      let* hn := load_e next hl in
      match hn with
      | None => ret tt
      | Some _ =>
        run reverse_loop fuel hd in
        (* tmp = q->tail; q->tail = q->head; q->head = tmp *)
        let* tmp := load_q tail ql in
        let* hd' := load_q head ql in
        run store_q (with_tail hd') ql in
        run store_q (with_head tmp) ql in
        ret tt
      end
    end
  end.

(** The two statements of [queue_remove_head] that fill the caller's
    buffer from the block [src] of the removed element, on their own. *)
Definition copy_out (buf : option (list byte)) (bufsize : Z) (src : list byte)
  : option (option (list byte)) :=
  match buf with
  | None => Some None
  | Some b =>
    match strncpy b src (size_sub bufsize 1) with
    | Some b1 =>
      match store_byte b1 (size_sub bufsize 1) x00 with
      | Some b2 => Some (Some b2)
      | None => None
      end
    | None => None
    end
  end.

(** ** Client code: sequences of calls *)

Inductive op :=
| InsertHead (s : list byte)
| InsertTail (s : list byte)
| RemoveHead (buf : option (list byte)) (bufsize : Z).

Definition exec_op (q : ptr) (o : op) : M bool :=
  match o with
  | InsertHead s => queue_insert_head q s
  | InsertTail s => queue_insert_tail q s
  | RemoveHead buf bufsize =>
    let* r := queue_remove_head q buf bufsize in
    ret (fst r)
  end.

(** Runs the calls in order and collects what each one returned. *)
Fixpoint exec_ops (q : ptr) (os : list op) : M (list bool) :=
  match os with
  | [] => ret []
  | o :: os' =>
    let* b := exec_op q o in
    let* bs := exec_ops q os' in
    ret (b :: bs)
  end.

Definition is_insert (o : op) : bool :=
  match o with RemoveHead _ _ => false | _ => true end.

(** Successful inserts minus successful removes. *)
Fixpoint balance (os : list op) (bs : list bool) : Z :=
  match os, bs with
  | o :: os', b :: bs' =>
    (if b then if is_insert o then 1 else -1 else 0) + balance os' bs'
  | _, _ => 0
  end.

(** [queue_insert_tail] for each string in turn; [true] when all of them
    went in. *)
Fixpoint insert_tail_all (q : ptr) (xs : list (list byte)) : M bool :=
  match xs with
  | [] => ret true
  | x :: xs' =>
    let* b := queue_insert_tail q x in
    if b : bool then insert_tail_all q xs' else ret false
  end.

(** [n] calls of [queue_remove_head], each into a buffer of [cap] bytes
    with [bufsize = cap]; the C strings left in the buffers, in order. *)
Fixpoint remove_all (n : nat) (q : ptr) (cap : nat) : M (list (list byte)) :=
  match n with
  | O => ret []
  | S n' =>
    let* r := queue_remove_head q (Some (replicate cap x01)) (Z.of_nat cap) in
    match r with
    | (true, Some b) =>
      let* rest := remove_all n' q cap in
      ret (cstring b :: rest)
    | _ => ret []
    end
  end.

(** ** The representation invariant *)

(** One element of the queue: the address of its [list_ele_t], the address
    of its character block and the string the block holds. *)
Record cell := mk_cell { c_node : loc; c_str : loc; c_bytes : list byte }.

Definition first_ptr (cs : list cell) (d : ptr) : ptr :=
  match cs with [] => d | c :: _ => Some (c_node c) end.

Fixpoint last_ptr (cs : list cell) (d : ptr) : ptr :=
  match cs with [] => d | c :: cs' => last_ptr cs' (Some (c_node c)) end.

(** The elements [cs] are linked both ways, in this order, between the
    pointers [p] (before the first) and [n] (after the last). *)
Fixpoint dll (N : gmap loc list_ele_t) (p : ptr) (cs : list cell) (n : ptr) : Prop :=
  match cs with
  | [] => True
  | c :: cs' =>
    N !! c_node c = Some (mk_ele (Some (c_str c)) (first_ptr cs' n) p) ∧
    dll N (Some (c_node c)) cs' n
  end.

Definition owns_string (B : gmap loc (list byte)) (c : cell) : Prop :=
  B !! c_str c = Some (c_bytes c ++ [x00]) ∧ x00 ∉ c_bytes c.

(** The queue at [q] holds exactly the elements [cs], head first. *)
Definition queue_repr (h : heap) (q : loc) (cs : list cell) : Prop :=
  queues h !! q
    = Some (mk_queue (first_ptr cs None) (last_ptr cs None) (Z.of_nat (length cs))) ∧
  dll (nodes h) None cs None ∧
  NoDup (c_node <$> cs) ∧
  NoDup (c_str <$> cs) ∧
  Forall (owns_string (strs h)) cs.

Definition queue_inv (h : heap) (q : loc) : Prop := ∃ cs, queue_repr h q cs.

(** The strings of the queue, head to tail. *)
Definition contents (cs : list cell) : list (list byte) := c_bytes <$> cs.

(** The elements reached from a pointer along [next]. *)
Inductive reachable (N : gmap loc list_ele_t) : ptr → loc → Prop :=
| reach_here l : reachable N (Some l) l
| reach_next l e m :
    N !! l = Some e → reachable N (next e) m → reachable N (Some l) m.

(** The structural invariants of the data model, as they are worded. *)
Definition struct_inv (h : heap) (q : loc) : Prop :=
  ∃ Q, queues h !! q = Some Q ∧
    (size Q = 0 ↔ head Q = None) ∧
    (head Q = None ↔ tail Q = None) ∧
    ∀ l e m, reachable (nodes h) (head Q) l → nodes h !! l = Some e →
      (next e = Some m → ∃ e', nodes h !! m = Some e' ∧ prev e' = Some l) ∧
      (prev e = Some m → ∃ e', nodes h !! m = Some e' ∧ next e' = Some l).

(** The same memory: two heaps that differ at most in the allocations still
    to come. *)
Definition same_mem (h h' : heap) : Prop :=
  queues h' = queues h ∧ nodes h' = nodes h ∧ strs h' = strs h.

(** What a copy of the string [s] into the buffer [b] with [bufsize] has
    to look like: nothing at or after [bufsize] is touched, the first
    [min (length s) (bufsize - 1)] bytes are those of [s] and a NUL follows
    them inside the first [bufsize] bytes. *)
Definition bounded_copy (b : list byte) (bufsize : Z) (s : list byte)
    (b' : list byte) : Prop :=
  length b' = length b ∧
  drop (Z.to_nat bufsize) b' = drop (Z.to_nat bufsize) b ∧
  let m := Nat.min (length s) (Z.to_nat (bufsize - 1)) in
  take m b' = take m s ∧ b' !! m = Some x00 ∧ Z.of_nat m < bufsize.

(** A call that cannot fault on a well-formed queue: the string has its
    NUL, the buffer is null or has room for [bufsize] bytes. *)
Definition valid_op (o : op) : Prop :=
  match o with
  | InsertHead s | InsertTail s => is_Some (strlen s)
  | RemoveHead None _ => True
  | RemoveHead (Some b) bufsize =>
    1 ≤ bufsize ∧ bufsize ≤ Z.of_nat (length b) ∧ bufsize < size_max
  end.

(** A call of [queue_remove_head] on the queue at [q] with the buffer [b]
    succeeds and leaves a bounded copy of the string [s] in the buffer. *)
Definition copies_within (h : heap) (q : loc) (s : list byte)
    (b : list byte) (bufsize : Z) : Prop :=
  ∃ b' h',
    queue_remove_head (Some q) (Some b) bufsize h = Ret (true, Some b') h' ∧
    bounded_copy b bufsize s b'.

(** What [queue_reverse] has to leave alone: the character blocks, the
    allocations to come, the elements that exist and the string each one
    points to, the queue structures that exist and their counts. *)
Definition reverse_frame (h h' : heap) : Prop :=
  strs h' = strs h ∧ oracle h' = oracle h ∧
  (∀ l, value <$> nodes h' !! l = value <$> nodes h !! l) ∧
  (∀ l, size <$> queues h' !! l = size <$> queues h !! l).

(** ** Sample states *)

(** The heap a computation leaves behind. *)
Definition heap_after {A} (m : M A) (h : heap) : heap :=
  match m h with Ret _ h' => h' | _ => h end.

Definition empty_heap : heap := mk_heap ∅ ∅ ∅ [].

(** A queue at address 1 that holds the one string "ab". *)
Definition ab_cell : cell := mk_cell 1%positive 1%positive [x61; x62].
Definition ab_heap : heap :=
  mk_heap {[1%positive := mk_queue (Some 1%positive) (Some 1%positive) 1]}
          {[1%positive := mk_ele (Some 1%positive) None None]}
          {[1%positive := [x61; x62; x00]]}
          [].

(** That queue after the removal of its only element. *)
Definition empty_queue_heap : heap :=
  mk_heap {[1%positive := mk_queue None None 0]} ∅ ∅ [].

(** The same queue when the second of the coming allocations fails. *)
Definition ab_heap_short : heap :=
  mk_heap (queues ab_heap) (nodes ab_heap) (strs ab_heap) [true; false].

(** A queue at address 1 that holds "ab" and then "c". *)
Definition abc_cells : list cell :=
  [mk_cell 1%positive 1%positive [x61; x62];
   mk_cell 2%positive 2%positive [x63]].
Definition abc_heap : heap :=
  heap_after
    (let* q := queue_new in
     run queue_insert_tail q [x61; x62; x00] in
     queue_insert_tail q [x63; x00])
    empty_heap.

(** A fresh queue and a mixed sequence of calls on it. *)
Definition fresh_heap : heap := heap_after queue_new empty_heap.
Definition sample_ops : list op :=
  [InsertTail [x61; x00]; InsertHead [x62; x00];
   RemoveHead (Some [x01; x01]) 2; RemoveHead None 0;
   RemoveHead None 0].

(** The fresh queue after the tail insertions of "a", "b" and "c". *)
Definition fifo_heap1 : heap :=
  heap_after (queue_insert_tail (Some 1%positive) [x61; x00]) fresh_heap.
Definition fifo_heap2 : heap :=
  heap_after (queue_insert_tail (Some 1%positive) [x62; x00]) fifo_heap1.
Definition fifo_heap3 : heap :=
  heap_after (queue_insert_tail (Some 1%positive) [x63; x00]) fifo_heap2.

(** ** queue.c: [queue_free] *)

(** [free(q)] for a queue structure. *)
Definition free_queue (p : ptr) : M unit :=
  match p with
  | None => ret tt
  | Some l => λ h, match queues h !! l with
                   | Some _ => Ret tt (set_queues (delete l) h)
                   | None => Crash
                   end
  end.

(** The loop of [queue_free], lines 52-60; [fuel] bounds the number of
    iterations. *)
Fixpoint free_loop (fuel : nat) (current : ptr) : M unit :=
  match current with
  | None => ret tt
  | Some c =>
    match fuel with
    | O => out_of_fuel
    | S fuel' =>
      (* free(current->value); next = current->next; free(current);
         current = next *)
      let* v := load_e value c in
      run free_chars v in
      let* nx := load_e next c in
      run free_ele current in
      free_loop fuel' nx
    end
  end.

(** [queue_free], lines 40-65. *)
Definition queue_free (fuel : nat) (q : ptr) : M unit :=
  match q with
  | None => ret tt
  | Some ql =>
    let* current := load_q head ql in
    run free_loop fuel current in
    run store_q (with_head None) ql in
    run store_q (with_tail None) ql in
    run store_q (with_size 0) ql in
    free_queue q
  end.

(** ** Client code: any call, with what it hands back *)

Inductive call :=
| CInsertHead (s : list byte)
| CInsertTail (s : list byte)
| CRemoveHead (buf : option (list byte)) (bufsize : Z)
| CSize
| CReverse (fuel : nat).

Inductive reply :=
| RInserted (ok : bool)
| RRemoved (ok : bool) (buf : option (list byte))
| RSize (n : Z)
| RReversed.

Definition exec_call (q : ptr) (c : call) : M reply :=
  match c with
  | CInsertHead s =>
    let* b := queue_insert_head q s in ret (RInserted b)
  | CInsertTail s =>
    let* b := queue_insert_tail q s in ret (RInserted b)
  | CRemoveHead buf bufsize =>
    let* r := queue_remove_head q buf bufsize in ret (RRemoved (fst r) (snd r))
  | CSize =>
    let* n := queue_size q in ret (RSize n)
  | CReverse fuel =>
    run queue_reverse fuel q in ret RReversed
  end.

Fixpoint exec_calls (q : ptr) (cs : list call) : M (list reply) :=
  match cs with
  | [] => ret []
  | c :: cs' =>
    let* r := exec_call q c in
    let* rs := exec_calls q cs' in
    ret (r :: rs)
  end.

(** ** The queue as a list of strings *)

(** What a call and its reply do to the list of the strings in the queue,
    head first. *)
Inductive model_step :
  list (list byte) → call → reply → list (list byte) → Prop :=
| ms_head_ok m s :
    model_step m (CInsertHead s) (RInserted true) (cstring s :: m)
| ms_head_failed m s :
    model_step m (CInsertHead s) (RInserted false) m
| ms_tail_ok m s :
    model_step m (CInsertTail s) (RInserted true) (m ++ [cstring s])
| ms_tail_failed m s :
    model_step m (CInsertTail s) (RInserted false) m
| ms_remove_empty buf bufsize :
    model_step [] (CRemoveHead buf bufsize) (RRemoved false buf) []
| ms_remove_null x m bufsize :
    model_step (x :: m) (CRemoveHead None bufsize) (RRemoved true None) m
| ms_remove_copy x m b bufsize b' :
    length b' = length b →
    cstring b' = take (Z.to_nat (size_sub bufsize 1)) x →
    model_step (x :: m) (CRemoveHead (Some b) bufsize) (RRemoved true (Some b')) m
| ms_size m :
    model_step m CSize (RSize (Z.of_nat (length m))) m
| ms_reverse m fuel :
    model_step m (CReverse fuel) RReversed (reverse m).

Inductive model_run :
  list (list byte) → list call → list reply → list (list byte) → Prop :=
| mr_nil m : model_run m [] [] m
| mr_cons m c r m1 cs rs m2 :
    model_step m c r m1 → model_run m1 cs rs m2 →
    model_run m (c :: cs) (r :: rs) m2.

(** ** What a call may touch *)

(** Between [h] and [h'] nothing has changed outside the queue at [q],
    whose elements were [cs] and are [cs']: not another queue structure,
    not an element or a character block of somebody else, allocated or
    not. *)
Definition frame_outside (q : loc) (cs cs' : list cell) (h h' : heap) : Prop :=
  (∀ l, l ≠ q → queues h' !! l = queues h !! l) ∧
  (∀ l, l ∉ c_node <$> cs → l ∉ c_node <$> cs' →
        nodes h' !! l = nodes h !! l) ∧
  (∀ l, l ∉ c_str <$> cs → l ∉ c_str <$> cs' →
        strs h' !! l = strs h !! l).

(** Whether the next two allocations succeed. *)
Definition two_allocs (o : list bool) : bool :=
  fst (pop_oracle o) && fst (pop_oracle (snd (pop_oracle o))).

(** The pointer [n] steps along [next], or along [prev], from [p]. *)
Fixpoint follow (f : list_ele_t → ptr) (N : gmap loc list_ele_t)
    (n : nat) (p : ptr) : ptr :=
  match n with
  | O => p
  | S n' =>
    match p with
    | None => None
    | Some l =>
      match N !! l with
      | Some e => follow f N n' (f e)
      | None => None
      end
    end
  end.

(** The shape of the chain of the queue at [q] with [n] elements: [n]
    steps of [next] from the head, and no fewer, lead to null; so do [n]
    steps of [prev] from the tail; every element met on the two walks is
    allocated; the head has no [prev], the tail no [next]; and the count
    is [n]. *)
Definition chain_shape (h : heap) (q : loc) (n : nat) : Prop :=
  ∃ Q, queues h !! q = Some Q ∧ size Q = Z.of_nat n ∧
    follow next (nodes h) n (head Q) = None ∧
    (∀ k, (k < n)%nat → follow next (nodes h) k (head Q) ≠ None) ∧
    follow prev (nodes h) n (tail Q) = None ∧
    (∀ k, (k < n)%nat → follow prev (nodes h) k (tail Q) ≠ None) ∧
    (∀ k l, follow next (nodes h) k (head Q) = Some l →
            is_Some (nodes h !! l)) ∧
    (∀ k l, follow prev (nodes h) k (tail Q) = Some l →
            is_Some (nodes h !! l)) ∧
    (∀ l e, head Q = Some l → nodes h !! l = Some e → prev e = None) ∧
    (∀ l e, tail Q = Some l → nodes h !! l = Some e → next e = None).

(** The bytes a successful copy of the string [s] leaves in the buffer
    [b]: the string cut to [bufsize - 1] characters, NULs up to and with
    position [bufsize - 1], and the rest of [b]. *)
Definition copied (b : list byte) (bufsize : Z) (s : list byte) : list byte :=
  resize (Z.to_nat (bufsize - 1)) x00 s
  ++ x00 :: drop (Z.to_nat bufsize) b.

(** What a call on a null handle replies. *)
Definition null_reply (c : call) : reply :=
  match c with
  | CInsertHead _ | CInsertTail _ => RInserted false
  | CRemoveHead buf _ => RRemoved false buf
  | CSize => RSize 0
  | CReverse _ => RReversed
  end.

(** A sample sequence of calls on a fresh queue. *)
Definition sample_calls : list call :=
  [CInsertTail [x61; x00]; CInsertTail [x62; x00]; CInsertHead [x63; x00];
   CSize; CReverse 5; CRemoveHead (Some [x01; x01]) 2; CRemoveHead None 0;
   CSize].

(** The heap [h] is the heap [h0] with, on top of it, the queue at [q]
    and its elements [cs] and their character blocks: take these away and
    what is left is the memory of [h0]. *)
Definition footprint (h0 h : heap) (q : loc) (cs : list cell) : Prop :=
  queues h0 !! q = None ∧
  (∀ l, l ≠ q → queues h !! l = queues h0 !! l) ∧
  (∀ l, nodes h0 !! l
        = if decide (l ∈ c_node <$> cs) then None else nodes h !! l) ∧
  (∀ l, strs h0 !! l
        = if decide (l ∈ c_str <$> cs) then None else strs h !! l).

(** Two lists of elements that share no element and no character block. *)
Definition apart (cs cs2 : list cell) : Prop :=
  (∀ l, l ∈ c_node <$> cs → l ∉ c_node <$> cs2) ∧
  (∀ l, l ∈ c_str <$> cs → l ∉ c_str <$> cs2).

(** What a call on the queue at [q] has done to the heap when the
    elements of the queue were [cs] and are [cs']: nothing outside the
    queue, an element or a block that is new was not allocated before,
    one that is gone is not allocated any more. *)
Definition queue_delta (q : loc) (cs cs' : list cell) (h h' : heap) : Prop :=
  frame_outside q cs cs' h h' ∧
  (∀ l, l ∈ c_node <$> cs' → l ∉ c_node <$> cs → nodes h !! l = None) ∧
  (∀ l, l ∈ c_node <$> cs → l ∉ c_node <$> cs' → nodes h' !! l = None) ∧
  (∀ l, l ∈ c_str <$> cs' → l ∉ c_str <$> cs → strs h !! l = None) ∧
  (∀ l, l ∈ c_str <$> cs → l ∉ c_str <$> cs' → strs h' !! l = None).

(** The fresh queue after the head insertions of "a", "b" and "c". *)
Definition lifo_heap1 : heap :=
  heap_after (queue_insert_head (Some 1%positive) [x61; x00]) fresh_heap.
Definition lifo_heap2 : heap :=
  heap_after (queue_insert_head (Some 1%positive) [x62; x00]) lifo_heap1.
Definition lifo_heap3 : heap :=
  heap_after (queue_insert_head (Some 1%positive) [x63; x00]) lifo_heap2.

(** Two queues side by side: "a" in the queue at address 1, "b" in the
    queue at address 2. *)
Definition two_queues_heap : heap :=
  heap_after
    (let* q1 := queue_new in
     run queue_insert_tail q1 [x61; x00] in
     let* q2 := queue_new in
     queue_insert_tail q2 [x62; x00])
    empty_heap.
Definition first_queue_cells : list cell :=
  [mk_cell 1%positive 1%positive [x61]].
Definition second_queue_cells : list cell :=
  [mk_cell 2%positive 2%positive [x62]].

(** What a call of [queue_remove_head] on the queue at [q], whose
    elements are [cs], has to do: it returns; it returns [false] exactly
    when the queue is empty, and then the heap and the buffer are as they
    were; when it returns [true] the old head element is out of the
    chain, it and its character block are freed, and the count is one
    less. *)
Definition removes_head (h : heap) (q : loc) (cs : list cell)
    (buf : option (list byte)) (bufsize : Z) : Prop :=
  ∃ r h',
    queue_remove_head (Some q) buf bufsize h = Ret r h' ∧
    (fst r = false ↔ cs = []) ∧
    (fst r = false → h' = h ∧ snd r = buf) ∧
    (fst r = true →
     ∃ c cs', cs = c :: cs' ∧ queue_repr h' q cs' ∧
       nodes h' !! c_node c = None ∧
       strs h' !! c_str c = None ∧
       queue_size (Some q) h' = Ret (Z.of_nat (length cs) - 1) h').

(** * Lemmas *)

(** ** Strings *)

Lemma is_nul_true b : is_nul b = true ↔ b = x00.
Proof.
  unfold is_nul. split; [apply Byte.byte_dec_bl | apply Byte.byte_dec_lb].
Qed.

Lemma is_nul_false b : is_nul b = false ↔ b ≠ x00.
Proof.
  rewrite <- is_nul_true. destruct (is_nul b); split; congruence.
Qed.

Lemma cstring_no_nul s : x00 ∉ cstring s.
Proof.
  induction s as [|b s IH]; simpl; [apply not_elem_of_nil|].
  destruct (is_nul b) eqn:E; [apply not_elem_of_nil|].
  apply is_nul_false in E. rewrite not_elem_of_cons. split; [congruence | done].
Qed.

Lemma strlen_split s n :
  strlen s = Some n → ∃ r, s = cstring s ++ x00 :: r ∧ length (cstring s) = n.
Proof.
  revert n. induction s as [|b s IH]; simpl; intros n H; [done|].
  destruct (is_nul b) eqn:E.
  - apply is_nul_true in E as ->. injection H as <-. by exists s.
  - destruct (strlen s) as [m|]; [|done]. injection H as <-.
    destruct (IH m eq_refl) as (r & Hs & Hm).
    exists r. simpl. split; [by rewrite <- Hs | by rewrite Hm].
Qed.

Lemma strcpy_spec dst l r :
  x00 ∉ l → (length l < length dst)%nat →
  strcpy dst (l ++ x00 :: r) = Some (l ++ x00 :: drop (S (length l)) dst).
Proof.
  revert dst. induction l as [|b l IH]; intros [|d dst] Hl Hlen; simpl in *; try lia.
  - by rewrite drop_0.
  - apply not_elem_of_cons in Hl as [Hb Hl].
    assert (is_nul b = false) as -> by (apply is_nul_false; congruence).
    rewrite IH by (done || lia). done.
Qed.

Lemma strncpy_spec dst l r (k : nat) :
  x00 ∉ l → (k ≤ length dst)%nat →
  strncpy dst (l ++ x00 :: r) (Z.of_nat k) = Some (resize k x00 l ++ drop k dst).
Proof.
  revert l k. induction dst as [|d dst IH]; intros l k Hl Hk.
  - simpl in Hk. assert (k = 0%nat) as -> by lia. by destruct l.
  - destruct k as [|k]; [by destruct l|].
    simpl in Hk.
    cbn [strncpy]. 
    assert ((Z.of_nat (S k) <=? 0) = false) as -> by (apply Z.leb_gt; lia).
    replace (Z.of_nat (S k) - 1) with (Z.of_nat k) by lia.
    destruct l as [|b l]; simpl.
    + specialize (IH [] k). simpl in IH. rewrite IH by (done || lia).
      by rewrite resize_nil.
    + apply not_elem_of_cons in Hl as [Hb Hl].
      assert (is_nul b = false) as -> by (apply is_nul_false; congruence).
      rewrite IH by (done || lia). done.
Qed.

Lemma strncpy_overflow dst src n :
  Z.of_nat (length dst) < n → strncpy dst src n = None.
Proof.
  revert src n. induction dst as [|d dst IH]; intros src n Hn; simpl in *.
  - assert ((n <=? 0) = false) as -> by (apply Z.leb_gt; lia). done.
  - assert ((n <=? 0) = false) as -> by (apply Z.leb_gt; lia).
    destruct src as [|b src]; [done|].
    destruct (is_nul b); rewrite IH by lia; done.
Qed.

(** ** Chains of elements *)

Lemma first_ptr_app cs1 cs2 d :
  first_ptr (cs1 ++ cs2) d = first_ptr cs1 (first_ptr cs2 d).
Proof. by destruct cs1. Qed.

Lemma last_ptr_app cs1 cs2 d :
  last_ptr (cs1 ++ cs2) d = last_ptr cs2 (last_ptr cs1 d).
Proof. revert d. induction cs1 as [|c cs1 IH]; intros d; simpl; [done | apply IH]. Qed.

Lemma first_ptr_reverse cs d : first_ptr (reverse cs) d = last_ptr cs d.
Proof.
  revert d. induction cs as [|c cs IH]; intros d; simpl; [done|].
  by rewrite reverse_cons, first_ptr_app, IH.
Qed.

Lemma last_ptr_reverse cs d : last_ptr (reverse cs) d = first_ptr cs d.
Proof.
  destruct cs as [|c cs]; simpl; [done|]. by rewrite reverse_cons, last_ptr_app.
Qed.

Lemma dll_frame N N' p cs n :
  dll N p cs n →
  (∀ c, c ∈ cs → N' !! c_node c = N !! c_node c) →
  dll N' p cs n.
Proof.
  revert p. induction cs as [|c cs IH]; intros p; simpl; [done|].
  intros [Hc Hcs] Hfr. split.
  - rewrite Hfr; [done | by apply elem_of_cons; left].
  - apply IH; [done|]. intros c' Hc'. apply Hfr. by apply elem_of_cons; right.
Qed.

Lemma dll_app N p cs1 cs2 n :
  dll N p (cs1 ++ cs2) n ↔
  dll N p cs1 (first_ptr cs2 n) ∧ dll N (last_ptr cs1 p) cs2 n.
Proof.
  revert p. induction cs1 as [|c cs1 IH]; intros p; simpl.
  - tauto.
  - rewrite IH, first_ptr_app. tauto.
Qed.

Lemma dll_allocated N p cs n c :
  dll N p cs n → c ∈ cs → is_Some (N !! c_node c).
Proof.
  revert p. induction cs as [|c' cs IH]; intros p; simpl.
  - intros _ H. by apply elem_of_nil in H.
  - intros [Hc Hcs] [->|H]%elem_of_cons; [by eexists | by eapply IH].
Qed.

Lemma elem_of_c_node (cs : list cell) c : c ∈ cs → c_node c ∈ c_node <$> cs.
Proof. apply (list_elem_of_fmap_2 c_node). Qed.

Lemma elem_of_c_str (cs : list cell) c : c ∈ cs → c_str c ∈ c_str <$> cs.
Proof. apply (list_elem_of_fmap_2 c_str). Qed.

Lemma dll_notin N p cs n l :
  dll N p cs n → N !! l = None → l ∉ c_node <$> cs.
Proof.
  intros Hd Hl (c & -> & Hc)%list_elem_of_fmap.
  destruct (dll_allocated _ _ _ _ _ Hd Hc) as [e He]. congruence.
Qed.

Lemma dll_insert N p cs n l e :
  dll N p cs n → l ∉ c_node <$> cs → dll (<[l:=e]> N) p cs n.
Proof.
  intros Hd Hl. eapply dll_frame; [done|].
  intros c Hc. apply lookup_insert_ne. intros ->.
  by apply Hl, elem_of_c_node.
Qed.

Lemma dll_delete N p cs n l :
  dll N p cs n → l ∉ c_node <$> cs → dll (delete l N) p cs n.
Proof.
  intros Hd Hl. eapply dll_frame; [done|].
  intros c Hc. apply lookup_delete_ne. intros ->.
  by apply Hl, elem_of_c_node.
Qed.

Lemma owns_notin (B : gmap loc (list byte)) cs l :
  Forall (owns_string B) cs → B !! l = None → l ∉ c_str <$> cs.
Proof.
  intros Hf Hl (c & -> & Hc)%list_elem_of_fmap.
  rewrite Forall_forall in Hf. destruct (Hf c Hc) as [Hs _]. congruence.
Qed.

Lemma owns_insert (B : gmap loc (list byte)) cs l b :
  Forall (owns_string B) cs → l ∉ c_str <$> cs →
  Forall (owns_string (<[l:=b]> B)) cs.
Proof.
  rewrite !Forall_forall. intros Hf Hl c Hc.
  destruct (Hf c Hc) as [Hs Hn]. split; [|done].
  rewrite lookup_insert_ne; [done|]. intros ->. by apply Hl, elem_of_c_str.
Qed.

Lemma owns_delete (B : gmap loc (list byte)) cs l :
  Forall (owns_string B) cs → l ∉ c_str <$> cs →
  Forall (owns_string (delete l B)) cs.
Proof.
  rewrite !Forall_forall. intros Hf Hl c Hc.
  destruct (Hf c Hc) as [Hs Hn]. split; [|done].
  rewrite lookup_delete_ne; [done|]. intros ->. by apply Hl, elem_of_c_str.
Qed.

(** ** Running the monad step by step *)

Lemma fresh_nodes h : nodes h !! fresh (dom (nodes h)) = None.
Proof. apply not_elem_of_dom, is_fresh. Qed.
Lemma fresh_strs h : strs h !! fresh (dom (strs h)) = None.
Proof. apply not_elem_of_dom, is_fresh. Qed.
Lemma fresh_queues h : queues h !! fresh (dom (queues h)) = None.
Proof. apply not_elem_of_dom, is_fresh. Qed.

Lemma bind_eq {A B} (m : M A) (k : A → M B) h a h1 :
  m h = Ret a h1 → bind m k h = k a h1.
Proof. unfold bind. by intros ->. Qed.

Lemma bind_crash {A B} (m : M A) (k : A → M B) h :
  m h = Crash → bind m k h = Crash.
Proof. unfold bind. by intros ->. Qed.

Lemma load_q_eq {A} (f : queue_t → A) q h Q :
  queues h !! q = Some Q → load_q f q h = Ret (f Q) h.
Proof. unfold load_q. by intros ->. Qed.
Lemma store_q_eq f q h Q :
  queues h !! q = Some Q → store_q f q h = Ret tt (set_queues <[q := f Q]> h).
Proof. unfold store_q. by intros ->. Qed.
Lemma load_e_eq {A} (f : list_ele_t → A) e h E :
  nodes h !! e = Some E → load_e f e h = Ret (f E) h.
Proof. unfold load_e. by intros ->. Qed.
Lemma store_e_eq f e h E :
  nodes h !! e = Some E → store_e f e h = Ret tt (set_nodes <[e := f E]> h).
Proof. unfold store_e. by intros ->. Qed.
Lemma load_s_eq s h b :
  strs h !! s = Some b → load_s s h = Ret b h.
Proof. unfold load_s. by intros ->. Qed.
Lemma store_s_eq s h b b' :
  strs h !! s = Some b → store_s s b' h = Ret tt (set_strs <[s := b']> h).
Proof. unfold store_s. by intros ->. Qed.
Lemma free_ele_eq l h E :
  nodes h !! l = Some E → free_ele (Some l) h = Ret tt (set_nodes (delete l) h).
Proof. unfold free_ele. by intros ->. Qed.
Lemma free_chars_eq l h b :
  strs h !! l = Some b → free_chars (Some l) h = Ret tt (set_strs (delete l) h).
Proof. unfold free_chars. by intros ->. Qed.
Lemma lift_eq {A} (o : option A) a h : o = Some a → lift o h = Ret a h.
Proof. by intros ->. Qed.

Lemma malloc_ele_eq h :
  malloc_ele h =
  let h1 := set_oracle (snd (pop_oracle (oracle h))) h in
  if fst (pop_oracle (oracle h))
  then Ret (Some (fresh (dom (nodes h))))
           (set_nodes <[fresh (dom (nodes h)) := mk_ele None None None]> h1)
  else Ret None h1.
Proof. unfold malloc_ele, bind, next_alloc. by destruct (pop_oracle _) as [[] ?]. Qed.

Lemma malloc_chars_eq n h :
  malloc_chars n h =
  let h1 := set_oracle (snd (pop_oracle (oracle h))) h in
  if fst (pop_oracle (oracle h))
  then Ret (Some (fresh (dom (strs h))))
           (set_strs <[fresh (dom (strs h)) := replicate n x00]> h1)
  else Ret None h1.
Proof. unfold malloc_chars, bind, next_alloc. by destruct (pop_oracle _) as [[] ?]. Qed.

Lemma malloc_queue_eq h :
  malloc_queue h =
  let h1 := set_oracle (snd (pop_oracle (oracle h))) h in
  if fst (pop_oracle (oracle h))
  then Ret (Some (fresh (dom (queues h))))
           (set_queues <[fresh (dom (queues h)) := mk_queue None None 0]> h1)
  else Ret None h1.
Proof. unfold malloc_queue, bind, next_alloc. by destruct (pop_oracle _) as [[] ?]. Qed.


Lemma do_strcpy_eq dst s h old new :
  strs h !! dst = Some old → strcpy old s = Some new →
  do_strcpy dst s h = Ret tt (set_strs <[dst := new]> h).
Proof.
  intros Hd Hc. unfold do_strcpy.
  erewrite bind_eq by (by apply load_s_eq).
  erewrite bind_eq by (by apply lift_eq).
  by eapply store_s_eq.
Qed.

Lemma strcpy_fresh s n :
  strlen s = Some n → strcpy (replicate (S n) x00) s = Some (cstring s ++ [x00]).
Proof.
  intros H. destruct (strlen_split s n H) as (r & Hs & Hn).
  rewrite Hs at 1. rewrite strcpy_spec.
  - rewrite Hn. by rewrite drop_ge by (rewrite length_replicate; lia).
  - apply cstring_no_nul.
  - rewrite length_replicate. lia.
Qed.

Ltac hsimpl :=
  unfold set_queues, set_nodes, set_strs, set_oracle,
    with_value, with_next, with_prev, with_head, with_tail, with_size in *;
  cbn [head tail size value next prev queues nodes strs oracle
       fst snd c_node c_str c_bytes first_ptr last_ptr] in *;
  rewrite ?insert_insert_eq.

Ltac lookup_tac :=
  hsimpl;
  repeat first
    [ rewrite lookup_insert_eq
    | rewrite lookup_insert_ne by (congruence || done)
    | rewrite lookup_delete_ne by (congruence || done) ];
  first [ reflexivity | eassumption ].

Ltac mstep :=
  first
    [ erewrite (bind_eq (load_q _ _)) by (apply load_q_eq; lookup_tac)
    | erewrite (bind_eq (store_q _ _)) by (apply store_q_eq; lookup_tac)
    | erewrite (bind_eq (load_e _ _)) by (apply load_e_eq; lookup_tac)
    | erewrite (bind_eq (store_e _ _)) by (apply store_e_eq; lookup_tac)
    | erewrite (bind_eq (load_s _)) by (apply load_s_eq; lookup_tac)
    | erewrite (bind_eq (store_s _ _)) by (eapply store_s_eq; lookup_tac)
    | erewrite (bind_eq (free_ele _)) by (eapply free_ele_eq; lookup_tac)
    | erewrite (bind_eq (free_chars _)) by (eapply free_chars_eq; lookup_tac)
    | erewrite (bind_eq (lift _)) by (apply lift_eq; first [reflexivity | eassumption])
    | erewrite (bind_eq (do_strcpy _ _))
        by (eapply do_strcpy_eq; [lookup_tac | eauto using strcpy_fresh])
    | erewrite (bind_eq (ret _)) by reflexivity ];
  hsimpl.

(** ** What each function does to a well-formed queue *)

(** The frame of a call: what is proved of the lookups that the call's
    insertions into the maps leave alone. *)
Ltac frame_tac :=
  repeat split; hsimpl;
  let l := fresh "l" in
  intros l; rewrite ?fmap_app, ?fmap_cons, ?not_elem_of_app, ?not_elem_of_cons;
  hsimpl; intros;
  rewrite ?lookup_insert_ne, ?lookup_delete_ne by (intuition congruence); done.

Lemma insert_head_full h q cs s :
  queue_repr h q cs →
  match queue_insert_head (Some q) s h with
  | Ret true h' => ∃ nl sl,
       (is_Some (strlen s) ∧ nodes h !! nl = None ∧ strs h !! sl = None ∧
        queue_repr h' q (mk_cell nl sl (cstring s) :: cs)) ∧
       frame_outside q cs (mk_cell nl sl (cstring s) :: cs) h h' ∧
       two_allocs (oracle h) = true ∧
       oracle h' = snd (pop_oracle (snd (pop_oracle (oracle h))))
  | Ret false h' => same_mem h h' ∧ two_allocs (oracle h) = false
  | Crash => strlen s = None
  | OutOfFuel => False
  end.
Proof.
  intros (Hq & Hdll & Hnd & Hsd & Hstr).
  pose proof (fresh_nodes h) as Hfn. pose proof (fresh_strs h) as Hfs.
  set (nl := fresh (dom (nodes h))) in *.
  set (sl := fresh (dom (strs h))) in *.
  unfold queue_insert_head, two_allocs.
  unfold bind at 1. rewrite malloc_ele_eq. fold nl. cbv zeta.
  destruct (pop_oracle (oracle h)) as [[] o1]; hsimpl; [|by repeat split].
  destruct (strlen s) as [n|] eqn:Hlen.
  2:{ by erewrite bind_crash. }
  mstep.
  unfold bind at 1. rewrite malloc_chars_eq. hsimpl. fold sl. cbv zeta.
  destruct (pop_oracle o1) as [[] o2]; hsimpl.
  2:{ mstep. mstep. unfold ret. repeat split; hsimpl; try done.
      rewrite delete_insert_eq. by apply delete_id. }
  mstep. mstep. mstep. mstep. mstep.
  assert (nl ∉ c_node <$> cs) as Hnl by eauto using dll_notin.
  assert (sl ∉ c_str <$> cs) as Hsl by eauto using owns_notin.
  destruct cs as [|c cs]; hsimpl.
  - mstep. mstep. mstep. mstep. unfold ret.
    exists nl, sl. split; [|split; [frame_tac | done]].
    repeat split; hsimpl; try done.
    + by rewrite lookup_insert_eq.
    + by rewrite lookup_insert_eq.
    + apply NoDup_singleton.
    + apply NoDup_singleton.
    + repeat constructor; hsimpl; [by rewrite lookup_insert_eq | apply cstring_no_nul].
  - destruct Hdll as [Hc Hdll].
    rewrite fmap_cons in Hnl, Hsl, Hnd, Hsd. hsimpl.
    apply not_elem_of_cons in Hnl as [Hne Hnl].
    apply NoDup_cons in Hnd as [Hcn Hnd].
    mstep. mstep. mstep. mstep. unfold ret.
    exists nl, sl. split; [|split; [frame_tac | done]].
    split; [done|]. split; [done|]. split; [done|].
    split; [|split; [|split; [|split]]]; hsimpl.
    + rewrite lookup_insert_eq. do 2 f_equal. cbn [length]. lia.
    + cbn [dll]. hsimpl. split; [|split].
      * by rewrite lookup_insert_ne, lookup_insert_eq.
      * by rewrite lookup_insert_eq.
      * apply dll_insert; [by apply dll_insert | done].
    + rewrite !fmap_cons. hsimpl. apply NoDup_cons. split.
      * by apply not_elem_of_cons.
      * by apply NoDup_cons.
    + rewrite fmap_cons. hsimpl. by apply NoDup_cons.
    + apply Forall_cons. split.
      * split; hsimpl; [by rewrite lookup_insert_eq | apply cstring_no_nul].
      * by apply owns_insert.
Qed.

Lemma insert_head_run h q cs s :
  queue_repr h q cs →
  match queue_insert_head (Some q) s h with
  | Ret true h' => ∃ nl sl, 
       is_Some (strlen s) ∧ nodes h !! nl = None ∧ strs h !! sl = None ∧
       queue_repr h' q (mk_cell nl sl (cstring s) :: cs)
  | Ret false h' => same_mem h h'
  | Crash => strlen s = None
  | OutOfFuel => False
  end.
Proof.
  intros Hr. pose proof (insert_head_full h q cs s Hr) as H.
  destruct (queue_insert_head (Some q) s h) as [[] h'| |]; try done.
  - destruct H as (nl & sl & H & _). by exists nl, sl.
  - by destruct H.
Qed.

Lemma snoc_case {A} (l : list A) : l = [] ∨ ∃ l0 x, l = l0 ++ [x].
Proof.
  induction l as [|x l _] using rev_ind; [by left | right; eauto].
Qed.

Lemma insert_tail_full h q cs s :
  queue_repr h q cs →
  match queue_insert_tail (Some q) s h with
  | Ret true h' => ∃ nl sl,
       (is_Some (strlen s) ∧ nodes h !! nl = None ∧ strs h !! sl = None ∧
        queue_repr h' q (cs ++ [mk_cell nl sl (cstring s)])) ∧
       frame_outside q cs (cs ++ [mk_cell nl sl (cstring s)]) h h' ∧
       two_allocs (oracle h) = true ∧
       oracle h' = snd (pop_oracle (snd (pop_oracle (oracle h))))
  | Ret false h' => same_mem h h' ∧ two_allocs (oracle h) = false
  | Crash => strlen s = None
  | OutOfFuel => False
  end.
Proof.
  intros (Hq & Hdll & Hnd & Hsd & Hstr).
  pose proof (fresh_nodes h) as Hfn. pose proof (fresh_strs h) as Hfs.
  set (nl := fresh (dom (nodes h))) in *.
  set (sl := fresh (dom (strs h))) in *.
  unfold queue_insert_tail, two_allocs.
  unfold bind at 1. rewrite malloc_ele_eq. fold nl. cbv zeta.
  destruct (pop_oracle (oracle h)) as [[] o1]; hsimpl; [|by repeat split].
  destruct (strlen s) as [n|] eqn:Hlen.
  2:{ by erewrite bind_crash. }
  mstep.
  unfold bind at 1. rewrite malloc_chars_eq. hsimpl. fold sl. cbv zeta.
  destruct (pop_oracle o1) as [[] o2]; hsimpl.
  2:{ mstep. unfold ret. repeat split; hsimpl; try done.
      rewrite delete_insert_eq. by apply delete_id. }
  mstep. mstep. mstep. mstep. mstep.
  assert (nl ∉ c_node <$> cs) as Hnl by eauto using dll_notin.
  assert (sl ∉ c_str <$> cs) as Hsl by eauto using owns_notin.
  destruct (snoc_case cs) as [->|(cs0 & c & ->)]; hsimpl.
  - mstep. mstep. mstep. mstep. unfold ret.
    exists nl, sl. split; [|split; [frame_tac | done]].
    repeat split; hsimpl; try done.
    + by rewrite lookup_insert_eq.
    + by rewrite lookup_insert_eq.
    + apply NoDup_singleton.
    + apply NoDup_singleton.
    + repeat constructor; hsimpl; [by rewrite lookup_insert_eq | apply cstring_no_nul].
  - rewrite last_ptr_app in *. hsimpl.
    apply dll_app in Hdll as [Hd0 [Hc _]]. hsimpl.
    rewrite fmap_app in Hnl, Hsl, Hnd, Hsd. cbn [fmap list_fmap] in *. hsimpl.
    apply not_elem_of_app in Hnl as [Hnl0 Hne%not_elem_of_cons]. destruct Hne as [Hne _].
    apply NoDup_app in Hnd as (Hnd0 & Hcn & _).
    assert (c_node c ∉ c_node <$> cs0) as Hcn0.
    { intros Hin. apply (Hcn _ Hin). by apply elem_of_cons; left. }
    mstep. mstep. mstep. mstep. unfold ret.
    exists nl, sl. split; [|split; [frame_tac | done]].
    split; [done|]. split; [done|]. split; [done|].
    split; [|split; [|split; [|split]]]; hsimpl.
    + rewrite lookup_insert_eq. f_equal.
      f_equal; [by destruct cs0 | by rewrite !last_ptr_app |].
      rewrite !length_app. cbn [length]. lia.
    + apply dll_app. rewrite last_ptr_app. hsimpl. split.
      * apply dll_app. hsimpl. split.
        -- apply dll_insert; [by apply dll_insert | done].
        -- cbn [dll]. hsimpl. split; [|done]. by rewrite lookup_insert_eq.
      * cbn [dll]. hsimpl. split; [|done].
        by rewrite lookup_insert_ne, lookup_insert_eq.
    + rewrite !fmap_app. cbn [fmap list_fmap]. hsimpl.
      apply NoDup_app. split; [|split].
      * apply NoDup_app. split; [done|]. split; [done | apply NoDup_singleton].
      * intros x Hx [->|Hx']%elem_of_cons; [|by apply elem_of_nil in Hx'].
        apply elem_of_app in Hx as [Hx|Hx]; [done|].
        apply elem_of_cons in Hx as [Hx|Hx]; [done | by apply elem_of_nil in Hx].
      * apply NoDup_singleton.
    + rewrite !fmap_app. cbn [fmap list_fmap]. hsimpl.
      apply NoDup_app. split; [done|]. split; [|apply NoDup_singleton].
      intros x Hx [->|Hx']%elem_of_cons; [|by apply elem_of_nil in Hx'].
      by apply Hsl.
    + apply Forall_app. split.
      * apply owns_insert; [done|]. by rewrite fmap_app.
      * repeat constructor; hsimpl; [by rewrite lookup_insert_eq | apply cstring_no_nul].
Qed.

Lemma insert_tail_run h q cs s :
  queue_repr h q cs →
  match queue_insert_tail (Some q) s h with
  | Ret true h' => ∃ nl sl,
       is_Some (strlen s) ∧ nodes h !! nl = None ∧ strs h !! sl = None ∧
       queue_repr h' q (cs ++ [mk_cell nl sl (cstring s)])
  | Ret false h' => same_mem h h'
  | Crash => strlen s = None
  | OutOfFuel => False
  end.
Proof.
  intros Hr. pose proof (insert_tail_full h q cs s Hr) as H.
  destruct (queue_insert_tail (Some q) s h) as [[] h'| |]; try done.
  - destruct H as (nl & sl & H & _). by exists nl, sl.
  - by destruct H.
Qed.

(** The copy into the caller's buffer. *)
Lemma copy_block_eq b bufsize vl src h :
  strs h !! vl = Some src →
  (let* src := load_s vl in
   let* b1 := lift (strncpy b src (size_sub bufsize 1)) in
   let* b2 := lift (store_byte b1 (size_sub bufsize 1) x00) in
   ret (Some b2)) h
  = match copy_out (Some b) bufsize src with
    | Some r => Ret r h
    | None => Crash
    end.
Proof.
  intros Hs. erewrite bind_eq by (by apply load_s_eq).
  unfold copy_out, bind.
  destruct (strncpy b src _) as [b1|]; [|done]. cbn.
  by destruct (store_byte b1 _ _).
Qed.

Lemma copy_step_eq buf bufsize vl src h :
  strs h !! vl = Some src →
  match buf with
  | Some b =>
    let* src := load_s vl in
    let* b1 := lift (strncpy b src (size_sub bufsize 1)) in
    let* b2 := lift (store_byte b1 (size_sub bufsize 1) x00) in
    ret (Some b2)
  | None => ret buf
  end h
  = match copy_out buf bufsize src with
    | Some r => Ret r h
    | None => Crash
    end.
Proof.
  intros Hs. destruct buf as [b|]; [by apply copy_block_eq | done].
Qed.

Lemma remove_head_full h q cs buf bufsize :
  queue_repr h q cs →
  match cs with
  | [] => queue_remove_head (Some q) buf bufsize h = Ret (false, buf) h
  | c :: cs' =>
    match copy_out buf bufsize (c_bytes c ++ [x00]) with
    | Some buf' =>
      ∃ h', queue_remove_head (Some q) buf bufsize h = Ret (true, buf') h' ∧
            (queue_repr h' q cs' ∧
             nodes h' !! c_node c = None ∧
             strs h' !! c_str c = None) ∧
            frame_outside q (c :: cs') cs' h h' ∧
            oracle h' = oracle h
    | None => queue_remove_head (Some q) buf bufsize h = Crash
    end
  end.
Proof.
  intros (Hq & Hdll & Hnd & Hsd & Hstr).
  unfold queue_remove_head.
  destruct cs as [|c cs]; hsimpl.
  - mstep. done.
  - mstep.
    assert ((Z.of_nat (length (c :: cs)) =? 0) = false) as ->
      by (apply Z.eqb_neq; cbn [length]; lia).
    destruct Hdll as [Hc Hdll].
    apply Forall_cons in Hstr as [[Hcs Hnul] Hstr].
    rewrite fmap_cons in Hnd, Hsd.
    apply NoDup_cons in Hnd as [Hcn Hnd]. apply NoDup_cons in Hsd as [Hcsn Hsd].
    mstep. unfold deref. mstep. mstep. mstep. mstep.
    destruct (copy_out buf bufsize _) as [r|] eqn:Hco.
    2:{ erewrite bind_crash; [done|].
        erewrite copy_step_eq by lookup_tac. by rewrite Hco. }
    erewrite (bind_eq _ _ _ r)
      by (erewrite copy_step_eq by lookup_tac; by rewrite Hco).
    mstep. mstep. mstep.
    destruct cs as [|c2 cs]; hsimpl.
    + mstep. mstep. mstep. mstep. mstep. unfold ret.
      eexists. split; [done|]. hsimpl.
      split; [|split; [frame_tac | done]].
      split; [|by rewrite !lookup_delete_eq].
      repeat split; hsimpl; try done; try apply NoDup_nil_2.
      by rewrite lookup_insert_eq.
    + destruct Hdll as [Hc2 Hdll].
      rewrite fmap_cons in Hcn, Hcsn. 
      apply not_elem_of_cons in Hcn as [Hne Hcn].
      apply not_elem_of_cons in Hcsn as [Hsne Hcsn].
      pose proof Hnd as Hnd'. pose proof Hsd as Hsd'.
      rewrite fmap_cons in Hnd', Hsd'.
      apply NoDup_cons in Hnd' as [Hc2n _].
      mstep. mstep. mstep. mstep. mstep. unfold ret.
      eexists. split; [done|]. hsimpl.
      split; [|split; [frame_tac | done]].
      split; [|by rewrite ?lookup_insert_ne, !lookup_delete_eq].
      split; [|split; [|split; [|split]]]; hsimpl; try done.
      * rewrite lookup_insert_eq. do 2 f_equal. cbn [length]. lia.
      * cbn [dll]. split; [by rewrite lookup_insert_eq|].
        apply dll_insert; [by apply dll_delete | done].
      * apply owns_delete; [done|]. rewrite fmap_cons. by apply not_elem_of_cons.
Qed.

Lemma remove_head_run h q cs buf bufsize :
  queue_repr h q cs →
  match cs with
  | [] => queue_remove_head (Some q) buf bufsize h = Ret (false, buf) h
  | c :: cs' =>
    match copy_out buf bufsize (c_bytes c ++ [x00]) with
    | Some buf' =>
      ∃ h', queue_remove_head (Some q) buf bufsize h = Ret (true, buf') h' ∧
            queue_repr h' q cs' ∧
            nodes h' !! c_node c = None ∧
            strs h' !! c_str c = None
    | None => queue_remove_head (Some q) buf bufsize h = Crash
    end
  end.
Proof.
  intros Hr. pose proof (remove_head_full h q cs buf bufsize Hr) as H.
  destruct cs as [|c cs]; [done|].
  destruct (copy_out buf bufsize _); [|done].
  destruct H as (h' & H & Hr' & _). by exists h'.
Qed.

Lemma cstring_prefix l z : x00 ∉ l → cstring (l ++ z) = l ++ cstring z.
Proof.
  induction l as [|b l IH]; simpl; intros H; [done|].
  apply not_elem_of_cons in H as [Hb Hl].
  assert (is_nul b = false) as -> by (apply is_nul_false; congruence).
  by rewrite IH.
Qed.

Lemma not_elem_of_take {A} (x : A) l k : x ∉ l → x ∉ take k l.
Proof. intros H Hin. apply H. by eapply subseteq_take. Qed.

(** The buffer after the copy, read as a C string. *)
Lemma cstring_copy l k r :
  x00 ∉ l → cstring (resize k x00 l ++ x00 :: r) = take k l.
Proof.
  intros Hl. rewrite resize_spec, <- app_assoc.
  rewrite cstring_prefix by (by apply not_elem_of_take).
  assert (cstring (replicate (k - length l) x00 ++ x00 :: r) = []) as ->
    by (by destruct (k - length l)%nat).
  by rewrite app_nil_r.
Qed.

Lemma size_sub_1 bufsize :
  1 ≤ bufsize → bufsize < size_max →
  size_sub bufsize 1 = Z.of_nat (Z.to_nat (bufsize - 1)).
Proof.
  intros H1 H2. unfold size_sub. rewrite Z.mod_small by lia. lia.
Qed.

Lemma copy_out_some b bufsize l :
  x00 ∉ l → 1 ≤ bufsize → bufsize ≤ Z.of_nat (length b) → bufsize < size_max →
  copy_out (Some b) bufsize (l ++ [x00])
  = Some (Some (resize (Z.to_nat (bufsize - 1)) x00 l
                ++ x00 :: drop (S (Z.to_nat (bufsize - 1))) b)).
Proof.
  intros Hl H1 H2 H3. unfold copy_out.
  rewrite size_sub_1 by done.
  set (k := Z.to_nat (bufsize - 1)).
  assert (k < length b)%nat as Hk by lia.
  rewrite strncpy_spec by (done || lia).
  unfold store_byte.
  rewrite length_app, length_resize, length_drop.
  assert ((0 <=? Z.of_nat k) && (Z.of_nat k <? Z.of_nat (k + (length b - k))) = true)
    as -> by (apply andb_true_iff; split; [apply Z.leb_le | apply Z.ltb_lt]; lia).
  rewrite Nat2Z.id.
  do 2 f_equal.
  rewrite insert_app_r_alt by (rewrite length_resize; lia).
  rewrite length_resize, Nat.sub_diag.
  destruct (drop k b) as [|d r] eqn:Hd.
  - apply (f_equal length) in Hd. rewrite length_drop in Hd. simpl in Hd. lia.
  - cbn. do 2 f_equal.
    replace (S k) with (k + 1)%nat by lia. by rewrite <- drop_drop, Hd.
Qed.

Lemma copy_bounded b bufsize l :
  1 ≤ bufsize → bufsize ≤ Z.of_nat (length b) →
  bounded_copy b bufsize l
    (resize (Z.to_nat (bufsize - 1)) x00 l ++ x00 :: drop (S (Z.to_nat (bufsize - 1))) b).
Proof.
  intros H1 H2. unfold bounded_copy.
  set (k := Z.to_nat (bufsize - 1)).
  assert (Z.to_nat bufsize = S k) as -> by lia.
  assert (k < length b)%nat as Hk by lia.
  split; [|split; [|split; [|split]]].
  - rewrite length_app, length_resize. cbn [length]. rewrite length_drop. lia.
  - change (x00 :: drop (S k) b) with ([x00] ++ drop (S k) b).
    rewrite app_assoc.
    rewrite drop_app_length'; [done|].
    rewrite length_app, length_resize. simpl. lia.
  - rewrite take_app_le by (rewrite length_resize; lia).
    rewrite resize_spec, take_app_le by (rewrite length_take; lia).
    rewrite take_take. f_equal. lia.
  - rewrite resize_spec, <- app_assoc.
    rewrite lookup_app_r by (rewrite length_take; lia).
    rewrite length_take.
    replace (length l `min` k - k `min` length l)%nat with 0%nat by lia.
    by destruct (k - length l)%nat.
  - lia.
Qed.

Lemma reverse_loop_full todo : ∀ fuel done h,
  dll (nodes h) (first_ptr todo None) done None →
  dll (nodes h) (first_ptr done None) todo None →
  NoDup (c_node <$> todo ++ done) →
  match reverse_loop fuel (first_ptr todo None) h with
  | Ret _ h' =>
    ∃ N', h' = mk_heap (queues h) N' (strs h) (oracle h) ∧
          dll N' None (reverse todo ++ done) None ∧
          ∀ l, l ∉ c_node <$> todo → N' !! l = nodes h !! l
  | Crash => False
  | OutOfFuel => (fuel < length todo)%nat
  end.
Proof.
  induction todo as [|c todo IH]; intros fuel done h Hdone Htodo Hnd.
  - destruct fuel; cbn; exists (nodes h); (split; [by destruct h | done]).
  - destruct fuel as [|fuel]; [cbn; lia|].
    cbn [first_ptr reverse_loop] in *.
    destruct Htodo as [Hc Htodo].
    rewrite fmap_app, fmap_cons in Hnd. cbn [app] in Hnd.
    apply NoDup_cons in Hnd as [Hcn Hnd].
    apply not_elem_of_app in Hcn as [Hct Hcd].
    mstep. mstep. mstep. mstep.
    match goal with |- context [reverse_loop fuel ?p ?h1] =>
      opose proof (IH fuel (c :: done) h1 _ _ _) as H
    end.
    { cbn [dll]. hsimpl. split; [by rewrite lookup_insert_eq|].
      by apply dll_insert. }
    { hsimpl. by apply dll_insert. }
    { rewrite fmap_app, fmap_cons. apply NoDup_app.
      apply NoDup_app in Hnd as (H1 & H2 & H3).
      split; [done|]. split.
      - intros x Hx [->|Hx']%elem_of_cons; [done | by eapply H2].
      - by apply NoDup_cons. }
    hsimpl.
    match goal with |- context [reverse_loop fuel ?p ?h1] =>
      destruct (reverse_loop fuel p h1) as [u h'| |]
    end; [|done|cbn [length]; lia].
    destruct H as (N' & -> & Hd & Hfr).
    exists N'. split; [done|]. split.
    + by rewrite reverse_cons, <- app_assoc.
    + intros l Hl. rewrite fmap_cons in Hl.
      apply not_elem_of_cons in Hl as [Hne Hl].
      rewrite Hfr by done. by rewrite lookup_insert_ne.
Qed.

Lemma reverse_full h q cs fuel :
  queue_repr h q cs →
  match queue_reverse fuel (Some q) h with
  | Ret _ h' =>
    queue_repr h' q (reverse cs) ∧
    frame_outside q cs (reverse cs) h h' ∧
    strs h' = strs h ∧ oracle h' = oracle h
  | Crash => False
  | OutOfFuel => (fuel < length cs)%nat
  end.
Proof.
  intros (Hq & Hdll & Hnd & Hsd & Hstr).
  unfold queue_reverse.
  destruct cs as [|c [|c2 cs]]; hsimpl.
  - mstep. by repeat split.
  - destruct Hdll as [Hc _]. mstep. mstep. by repeat split.
  - pose proof Hdll as [Hc _].
    mstep. mstep.
    pose proof (reverse_loop_full (c :: c2 :: cs) fuel [] h) as Hloop.
    unfold bind at 1. cbn [first_ptr] in Hloop.
    destruct (reverse_loop fuel (Some (c_node c)) h) as [u h1| |].
    + destruct Hloop as (N' & -> & Hd & Hfr);
        [done | done | by rewrite app_nil_r |].
      rewrite app_nil_r in Hd.
      mstep. mstep. mstep. mstep. unfold ret. hsimpl.
      split; [|split; [|done]].
      * split; [|split; [|split; [|split]]]; hsimpl.
        -- rewrite lookup_insert_eq. f_equal.
           rewrite first_ptr_reverse, last_ptr_reverse, length_reverse. done.
        -- done.
        -- by rewrite reverse_Permutation.
        -- by rewrite reverse_Permutation.
        -- by apply Forall_reverse.
      * split; [|split]; hsimpl.
        -- intros l Hl. by rewrite lookup_insert_ne.
        -- intros l Hl _. by apply Hfr.
        -- done.
    + apply Hloop; [done | done | by rewrite app_nil_r].
    + apply Hloop; [done | done | by rewrite app_nil_r].
Qed.

Lemma reverse_run h q cs fuel :
  queue_repr h q cs → (length cs ≤ fuel)%nat →
  ∃ h', queue_reverse fuel (Some q) h = Ret tt h' ∧
        queue_repr h' q (reverse cs) ∧
        strs h' = strs h ∧ oracle h' = oracle h.
Proof.
  intros Hr Hfuel. pose proof (reverse_full h q cs fuel Hr) as H.
  destruct (queue_reverse fuel (Some q) h) as [[] h'| |]; [|done|lia].
  destruct H as (Hr' & _ & Hs & Ho). by exists h'.
Qed.

Lemma queue_new_run h :
  match queue_new h with
  | Ret (Some q) h' =>
    queue_repr h' q [] ∧ queues h !! q = None ∧
    nodes h' = nodes h ∧ strs h' = strs h
  | Ret None h' => same_mem h h'
  | _ => False
  end.
Proof.
  unfold queue_new. unfold bind at 1. rewrite malloc_queue_eq. cbv zeta.
  pose proof (fresh_queues h) as Hf.
  destruct (pop_oracle (oracle h)) as [[] o]; hsimpl; [|done].
  mstep. mstep. mstep. unfold ret. hsimpl.
  repeat split; try done; try apply NoDup_nil_2.
  hsimpl. by rewrite lookup_insert_eq.
Qed.

(** ** What [queue_reverse] leaves alone, on any heap *)

Lemma reverse_frame_refl h : reverse_frame h h.
Proof. by repeat split. Qed.

Lemma reverse_frame_trans h1 h2 h3 :
  reverse_frame h1 h2 → reverse_frame h2 h3 → reverse_frame h1 h3.
Proof.
  intros (A1 & A2 & A3 & A4) (B1 & B2 & B3 & B4).
  repeat split; [congruence | congruence | |].
  - intros l. by rewrite B3.
  - intros l. by rewrite B4.
Qed.

Lemma reverse_loop_frame fuel : ∀ cur h,
  match reverse_loop fuel cur h with
  | Ret _ h' => reverse_frame h h' ∧ queues h' = queues h
  | _ => True
  end.
Proof.
  induction fuel as [|fuel IH]; intros [c|] h; cbn [reverse_loop];
    try done; try (split; [apply reverse_frame_refl | done]).
  destruct (nodes h !! c) as [E|] eqn:HE.
  2:{ erewrite bind_crash; [done|]. unfold load_e. by rewrite HE. }
  mstep. mstep. mstep. mstep.
  match goal with |- context [reverse_loop fuel ?t ?h1] =>
    specialize (IH t h1); destruct (reverse_loop fuel t h1) as [u h'| |]
  end; try done.
  destruct IH as [IH IHq]. hsimpl. split; [|done].
  eapply reverse_frame_trans; [|exact IH].
  repeat split; hsimpl; try done.
  intros l. destruct (decide (l = c)) as [->|Hne].
  - by rewrite lookup_insert_eq, HE.
  - by rewrite lookup_insert_ne.
Qed.

Lemma reverse_frame_run fuel q h :
  match queue_reverse fuel q h with
  | Ret _ h' => reverse_frame h h'
  | _ => True
  end.
Proof.
  destruct q as [ql|]; cbn [queue_reverse]; [|apply reverse_frame_refl].
  destruct (queues h !! ql) as [Q|] eqn:HQ.
  2:{ erewrite bind_crash; [done|]. unfold load_q. by rewrite HQ. }
  mstep. destruct (head Q) as [hl|] eqn:Hhd; [|apply reverse_frame_refl].
  destruct (nodes h !! hl) as [E|] eqn:HE.
  2:{ erewrite bind_crash; [done|]. unfold load_e. by rewrite HE. }
  mstep. destruct (next E) as [hn|] eqn:Hnx; [|apply reverse_frame_refl].
  pose proof (reverse_loop_frame fuel (Some hl) h) as Hloop.
  unfold bind at 1.
  destruct (reverse_loop fuel (Some hl) h) as [u h1| |]; try done.
  destruct Hloop as [Hfr Hq1].
  assert (queues h1 !! ql = Some Q) as HQ1 by (by rewrite Hq1).
  mstep. mstep. mstep. mstep. unfold ret.
  eapply reverse_frame_trans; [exact Hfr|].
  repeat split; hsimpl; try done.
  intros l. destruct (decide (l = ql)) as [->|Hne].
  - by rewrite lookup_insert_eq, HQ1.
  - by rewrite lookup_insert_ne.
Qed.

Lemma fmap_lookup_dom {A B} (f : A → B) (m m' : gmap loc A) :
  (∀ l, f <$> m' !! l = f <$> m !! l) → dom m' = dom m.
Proof.
  intros H. apply set_eq. intros l. rewrite !elem_of_dom.
  specialize (H l). destruct (m' !! l), (m !! l); simpl in H; try done;
    split; intros [? ?]; done.
Qed.

(** ** Failed insertions, on any heap *)

Ltac mcrash H :=
  erewrite bind_crash;
  [ exact I
  | unfold load_q, load_e, store_e, store_q;
    hsimpl; rewrite ?lookup_insert_ne by congruence; by rewrite H ].

Lemma same_mem_refl h : same_mem h h.
Proof. done. Qed.

Lemma insert_head_fail q s h :
  match queue_insert_head q s h with
  | Ret false h' => same_mem h h'
  | _ => True
  end.
Proof.
  destruct q as [ql|]; [|apply same_mem_refl].
  pose proof (fresh_nodes h) as Hfn. pose proof (fresh_strs h) as Hfs.
  set (nl := fresh (dom (nodes h))) in *.
  set (sl := fresh (dom (strs h))) in *.
  unfold queue_insert_head.
  unfold bind at 1. rewrite malloc_ele_eq. fold nl. cbv zeta.
  destruct (pop_oracle (oracle h)) as [[] o1]; hsimpl; [|done].
  destruct (strlen s) as [n|] eqn:Hlen; [|by erewrite bind_crash].
  mstep.
  unfold bind at 1. rewrite malloc_chars_eq. hsimpl. fold sl. cbv zeta.
  destruct (pop_oracle o1) as [[] o2]; hsimpl.
  2:{ mstep. mstep. unfold ret. repeat split; hsimpl; try done.
      rewrite delete_insert_eq. by apply delete_id. }
  mstep. mstep.
  destruct (queues h !! ql) as [Q|] eqn:HQ; [|mcrash HQ].
  mstep. mstep. mstep.
  destruct (head Q) as [hl|] eqn:Hhd.
  - destruct (decide (hl = nl)) as [->|Hne].
    + mstep. mstep. mstep. mstep. done.
    + destruct (nodes h !! hl) as [E|] eqn:HE; [|mcrash HE].
      mstep. mstep. mstep. mstep. done.
  - mstep. mstep. mstep. mstep. done.
Qed.

Lemma insert_tail_fail q s h :
  match queue_insert_tail q s h with
  | Ret false h' => same_mem h h'
  | _ => True
  end.
Proof.
  destruct q as [ql|]; [|apply same_mem_refl].
  pose proof (fresh_nodes h) as Hfn. pose proof (fresh_strs h) as Hfs.
  set (nl := fresh (dom (nodes h))) in *.
  set (sl := fresh (dom (strs h))) in *.
  unfold queue_insert_tail.
  unfold bind at 1. rewrite malloc_ele_eq. fold nl. cbv zeta.
  destruct (pop_oracle (oracle h)) as [[] o1]; hsimpl; [|done].
  destruct (strlen s) as [n|] eqn:Hlen; [|by erewrite bind_crash].
  mstep.
  unfold bind at 1. rewrite malloc_chars_eq. hsimpl. fold sl. cbv zeta.
  destruct (pop_oracle o1) as [[] o2]; hsimpl.
  2:{ mstep. unfold ret. repeat split; hsimpl; try done.
      rewrite delete_insert_eq. by apply delete_id. }
  mstep. mstep.
  destruct (queues h !! ql) as [Q|] eqn:HQ; [|mcrash HQ].
  mstep. mstep. mstep.
  destruct (tail Q) as [tl|] eqn:Htl.
  - destruct (decide (tl = nl)) as [->|Hne].
    + mstep. mstep. mstep. mstep. done.
    + destruct (nodes h !! tl) as [E|] eqn:HE; [|mcrash HE].
      mstep. mstep. mstep. mstep. done.
  - mstep. mstep. mstep. mstep. done.
Qed.

(** ** From the representation to the structural invariants *)

Lemma repr_same_mem h h' q cs :
  same_mem h h' → queue_repr h q cs → queue_repr h' q cs.
Proof.
  intros (Hq & Hn & Hs). unfold queue_repr. by rewrite Hq, Hn, Hs.
Qed.

Lemma reachable_in N p cs l :
  dll N p cs None → reachable N (first_ptr cs None) l → l ∈ c_node <$> cs.
Proof.
  revert p. induction cs as [|c cs IH]; intros p Hd Hr; cbn in *.
  - inversion Hr.
  - destruct Hd as [Hc Hd]. apply elem_of_cons.
    inversion Hr as [|? e ? He Hr']; subst; [by left | right].
    rewrite Hc in He. injection He as <-. cbn in Hr'. by eapply IH.
Qed.

Lemma dll_links N cs1 c cs2 e :
  dll N None (cs1 ++ c :: cs2) None →
  N !! c_node c = Some e →
  (∀ m, next e = Some m → ∃ e', N !! m = Some e' ∧ prev e' = Some (c_node c)) ∧
  (∀ m, prev e = Some m → ∃ e', N !! m = Some e' ∧ next e' = Some (c_node c)).
Proof.
  intros [Hd1 [Hc Hd2]]%dll_app He. rewrite Hc in He. injection He as <-. cbn.
  split; intros m Hm.
  - destruct cs2 as [|c2 cs2]; [done|]. cbn in Hm. injection Hm as <-.
    destruct Hd2 as [Hc2 _]. by eexists.
  - destruct (snoc_case cs1) as [->|(cs0 & c0 & ->)]; [done|].
    rewrite last_ptr_app in Hm. cbn in Hm. injection Hm as <-.
    apply dll_app in Hd1 as [_ [Hc0 _]]. by eexists.
Qed.

Lemma repr_struct_inv h q cs : queue_repr h q cs → struct_inv h q.
Proof.
  intros (Hq & Hdll & Hnd & Hsd & Hstr).
  eexists. split; [exact Hq|]. cbn [head tail size].
  split; [|split].
  - destruct cs; cbn; split; (done || lia).
  - destruct (snoc_case cs) as [->|(cs0 & c0 & ->)]; [done|].
    rewrite last_ptr_app. by destruct cs0.
  - intros l e m Hr He.
    apply (reachable_in _ _ _ _ Hdll) in Hr.
    apply list_elem_of_fmap in Hr as (c & -> & Hc).
    apply list_elem_of_split in Hc as (cs1 & cs2 & ->).
    destruct (dll_links _ _ _ _ _ Hdll He) as [H1 H2]. split; auto.
Qed.

(** ** Sequences of calls *)

Lemma exec_op_run h q cs o :
  queue_repr h q cs →
  match exec_op (Some q) o h with
  | Ret b h' =>
    ∃ cs', queue_repr h' q cs' ∧
      Z.of_nat (length cs')
      = Z.of_nat (length cs) + (if b then if is_insert o then 1 else -1 else 0)
  | Crash => ¬ valid_op o
  | OutOfFuel => False
  end.
Proof.
  intros Hr. destruct o as [s|s|buf bufsize]; cbn [exec_op is_insert].
  - pose proof (insert_head_run h q cs s Hr) as H.
    destruct (queue_insert_head (Some q) s h) as [[] h'| |]; try done.
    + destruct H as (nl & sl & _ & _ & _ & H). eexists. split; [exact H|].
      cbn [length]. lia.
    + exists cs. split; [by eapply repr_same_mem | lia].
    + cbn. rewrite H. by intros [? ?].
  - pose proof (insert_tail_run h q cs s Hr) as H.
    destruct (queue_insert_tail (Some q) s h) as [[] h'| |]; try done.
    + destruct H as (nl & sl & _ & _ & _ & H). eexists. split; [exact H|].
      rewrite length_app. cbn [length]. lia.
    + exists cs. split; [by eapply repr_same_mem | lia].
    + cbn. rewrite H. by intros [? ?].
  - pose proof (remove_head_run h q cs buf bufsize Hr) as H.
    destruct cs as [|c cs].
    + erewrite bind_eq by exact H. cbn. exists []. split; [done | cbn; lia].
    + destruct (copy_out buf bufsize _) as [r|] eqn:Hco.
      * destruct H as (h' & H & Hr' & _). erewrite bind_eq by exact H. cbn.
        exists cs. split; [done | cbn [length]; lia].
      * erewrite bind_crash by exact H.
        destruct buf as [b|]; [|done]. intros (H1 & H2 & H3).
        destruct Hr as (_ & _ & _ & _ & Hstr).
        apply Forall_cons in Hstr as [[_ Hnul] _].
        by rewrite copy_out_some in Hco.
Qed.

Lemma exec_ops_run os : ∀ h q cs,
  queue_repr h q cs →
  match exec_ops (Some q) os h with
  | Ret bs h' =>
    ∃ cs', queue_repr h' q cs' ∧
      Z.of_nat (length cs') = Z.of_nat (length cs) + balance os bs
  | Crash => ¬ Forall valid_op os
  | OutOfFuel => False
  end.
Proof.
  induction os as [|o os IH]; intros h q cs Hr; cbn [exec_ops].
  - exists cs. split; [done | cbn; lia].
  - pose proof (exec_op_run h q cs o Hr) as H. unfold bind at 1.
    destruct (exec_op (Some q) o h) as [b h1| |]; [|by intros [? ?]%Forall_cons|done].
    destruct H as (cs1 & Hr1 & Hlen1).
    specialize (IH h1 q cs1 Hr1). unfold bind at 1.
    destruct (exec_ops (Some q) os h1) as [bs h2| |]; [|by intros [? ?]%Forall_cons|done].
    destruct IH as (cs2 & Hr2 & Hlen2).
    exists cs2. split; [done|]. cbn [balance]. lia.
Qed.

Lemma insert_tail_all_run xs : ∀ h q cs h',
  queue_repr h q cs →
  insert_tail_all (Some q) xs h = Ret true h' →
  ∃ cs', queue_repr h' q (cs ++ cs') ∧ contents cs' = cstring <$> xs.
Proof.
  induction xs as [|x xs IH]; intros h q cs h' Hr Hrun; cbn [insert_tail_all] in Hrun.
  - injection Hrun as <-. exists []. by rewrite app_nil_r.
  - pose proof (insert_tail_run h q cs x Hr) as H. unfold bind in Hrun.
    destruct (queue_insert_tail (Some q) x h) as [[] h1| |]; try done.
    destruct H as (nl & sl & _ & _ & _ & Hr1).
    destruct (IH _ _ _ _ Hr1 Hrun) as (cs' & Hr' & Hc).
    exists (mk_cell nl sl (cstring x) :: cs'). split.
    + by rewrite <- app_assoc in Hr'.
    + cbn. by rewrite <- Hc.
Qed.

Lemma remove_all_run cap cs : ∀ h q,
  queue_repr h q cs →
  Forall (λ c, (length (c_bytes c) < cap)%nat) cs →
  Z.of_nat cap < size_max →
  ∃ h', remove_all (length cs) (Some q) cap h = Ret (contents cs) h' ∧
        queue_repr h' q [].
Proof.
  induction cs as [|c cs IH]; intros h q Hr Hcap Hmax; cbn [length remove_all].
  - by exists h.
  - apply Forall_cons in Hcap as [Hc Hcap].
    pose proof (remove_head_run h q (c :: cs) (Some (replicate cap x01)) (Z.of_nat cap) Hr) as H.
    cbn beta iota in H.
    pose proof Hr as (_ & _ & _ & _ & Hstr).
    apply Forall_cons in Hstr as [[_ Hnul] _].
    rewrite copy_out_some in H
      by (rewrite ?length_replicate; (done || lia)).
    destruct H as (h1 & H & Hr1 & _).
    erewrite bind_eq by exact H. cbn beta iota.
    destruct (IH h1 q Hr1 Hcap Hmax) as (h2 & Hrun & Hr2).
    erewrite bind_eq by exact Hrun. unfold ret.
    exists h2. split; [|done]. cbn. do 2 f_equal.
    rewrite cstring_copy by done. apply take_ge. lia.
Qed.

(** With [bufsize = 0] the byte count [bufsize - 1] wraps to the largest
    [size_t]: the copy runs off the end of any buffer there can be. *)
Lemma copy_out_zero b src :
  Z.of_nat (length b) < size_max - 1 → copy_out (Some b) 0 src = None.
Proof.
  intros Hb. unfold copy_out.
  assert (size_sub 0 1 = size_max - 1) as -> by reflexivity.
  by rewrite strncpy_overflow.
Qed.

Lemma remove_head_zero_crashes h q c cs b :
  queue_repr h q (c :: cs) → Z.of_nat (length b) < size_max - 1 →
  queue_remove_head (Some q) (Some b) 0 h = Crash.
Proof.
  intros Hr Hb.
  pose proof (remove_head_run h q (c :: cs) (Some b) 0 Hr) as H.
  cbn beta iota in H. by rewrite copy_out_zero in H.
Qed.

(** ** The sample states *)

(** Goals about the sample states are settled by evaluation. *)
Ltac no_nul :=
  let H := fresh in
  intros H; repeat (apply elem_of_cons in H as [H|H]; [discriminate H|]);
  by apply elem_of_nil in H.

Ltac sample_repr :=
  unfold queue_repr;
  repeat match goal with
         | |- _ ∧ _ => split
         | |- NoDup _ => apply (bool_decide_unpack _); vm_compute; exact I
         | |- Forall _ _ => constructor
         | |- owns_string _ _ => split
         | |- _ ∉ _ => no_nul
         | |- dll _ _ _ _ => vm_compute
         | |- True => exact I
         | |- _ = _ => vm_compute; reflexivity
         end.

Lemma ab_heap_repr : queue_repr ab_heap 1%positive [ab_cell].
Proof. sample_repr. Qed.

Lemma abc_heap_repr : queue_repr abc_heap 1%positive abc_cells.
Proof. sample_repr. Qed.

Lemma fresh_heap_new : queue_new empty_heap = Ret (Some 1%positive) fresh_heap.
Proof. vm_compute. reflexivity. Qed.

(** The example of the specification: "a" and "b" at the tail, "c" at the
    head; the size is 3, two removals give "c" and "a", the size is 1. *)
Example spec_example :
  (let* q := queue_new in
   run queue_insert_tail q [x61; x00] in
   run queue_insert_tail q [x62; x00] in
   run queue_insert_head q [x63; x00] in
   let* n3 := queue_size q in
   let* r1 := queue_remove_head q (Some [x01; x01]) 2 in
   let* r2 := queue_remove_head q (Some [x01; x01]) 2 in
   let* n1 := queue_size q in
   ret (n3, r1, r2, n1)) empty_heap
  = Ret (3, (true, Some [x63; x00]), (true, Some [x61; x00]), 1)
        (mk_heap {[1%positive := mk_queue (Some 2%positive) (Some 2%positive) 1]}
                 {[2%positive := mk_ele (Some 2%positive) None None]}
                 {[2%positive := [x62; x00]]} []).
Proof. vm_compute. reflexivity. Qed.

(** * The properties of the specification *)

(** C1 (as amended). For a buffer size of at least one: removing the head
    of a non-empty queue into a buffer that has room for [bufsize] bytes
    succeeds, leaves every byte at or after [bufsize] as it was, puts the
    first [min (len, bufsize - 1)] characters of the removed string at the
    start of the buffer and a NUL right after them, inside the first
    [bufsize] bytes; a longer string is cut, the call does not fail. *)
Theorem remove_head_copy_bounded h q c cs b bufsize :
  queue_repr h q (c :: cs) →
  1 ≤ bufsize → bufsize ≤ Z.of_nat (length b) → bufsize < size_max →
  copies_within h q (c_bytes c) b bufsize.
Proof.
  intros Hr H1 H2 H3.
  pose proof (remove_head_run h q (c :: cs) (Some b) bufsize Hr) as H.
  cbn beta iota in H.
  pose proof Hr as (_ & _ & _ & _ & Hstr).
  apply Forall_cons in Hstr as [[_ Hnul] _].
  rewrite copy_out_some in H by done.
  destruct H as (h' & H & _).
  eexists _, h'. split; [exact H|]. by apply copy_bounded.
Qed.

Lemma remove_head_copy_bounded_witness :
  copies_within ab_heap 1%positive [x61; x62] [x01; x01; x01] 2.
Proof.
  apply (remove_head_copy_bounded ab_heap 1%positive ab_cell [] [x01; x01; x01] 2).
  - sample_repr.
  - lia.
  - simpl. lia.
  - reflexivity.
Defined.

(** C1 as it is worded fails for [bufsize = 0]: on a buffer of capacity
    zero the call writes out of bounds instead of copying nothing. *)
Lemma remove_head_bufsize_zero :
  queue_repr ab_heap 1%positive [ab_cell] ∧
  queue_remove_head (Some 1%positive) (Some []) 0 ab_heap = Crash ∧
  ¬ copies_within ab_heap 1%positive (c_bytes ab_cell) [] 0.
Proof.
  split; [sample_repr|].
  assert (queue_remove_head (Some 1%positive) (Some []) 0 ab_heap = Crash) as E
    by (vm_compute; reflexivity).
  split; [exact E|].
  intros (b' & h' & H & _).
  pose proof (eq_trans (eq_sym E) H) as X. discriminate X.
Qed.

(** C2. When [queue_insert_head] or [queue_insert_tail] returns [false],
    for whichever reason, the queue structures, the list elements and the
    character blocks are exactly those from before the call: the element
    allocated before a failed string allocation has been freed again. *)
Theorem insert_failure_leaves_queue q s h h' :
  (queue_insert_head q s h = Ret false h' → same_mem h h') ∧
  (queue_insert_tail q s h = Ret false h' → same_mem h h').
Proof.
  split; intros H.
  - pose proof (insert_head_fail q s h) as Hf. by rewrite H in Hf.
  - pose proof (insert_tail_fail q s h) as Hf. by rewrite H in Hf.
Qed.

Lemma insert_failure_leaves_queue_witness :
  same_mem ab_heap_short ab_heap ∧ same_mem ab_heap_short ab_heap.
Proof.
  destruct (insert_failure_leaves_queue (Some 1%positive) [x63; x00]
              ab_heap_short ab_heap) as [Hh Ht].
  split; [apply Hh | apply Ht]; vm_compute; reflexivity.
Defined.

(** C3 (as amended). [queue_remove_head] returns [false], with the heap
    and the buffer as they were, exactly when the handle is null or the
    queue is empty.  On every other call whose buffer is null or has room
    for [bufsize] bytes, with [bufsize] at least 1, it returns [true]:
    the old head element is gone from the chain and from the heap and
    the count is one less.  Whatever the buffer, a call on a non-empty
    queue never returns [false]. *)
Theorem remove_head_fails_iff_empty :
  (∀ h buf bufsize,
     queue_remove_head None buf bufsize h = Ret (false, buf) h) ∧
  (∀ h q cs buf bufsize,
     queue_repr h q cs →
     cs = [] ∨ valid_op (RemoveHead buf bufsize) →
     removes_head h q cs buf bufsize) ∧
  (∀ h q cs buf bufsize r h',
     queue_repr h q cs →
     queue_remove_head (Some q) buf bufsize h = Ret r h' →
     (fst r = false ↔ cs = []) ∧
     (fst r = false → h' = h ∧ snd r = buf) ∧
     (fst r = true →
      ∃ c cs', cs = c :: cs' ∧ queue_repr h' q cs' ∧
        nodes h' !! c_node c = None ∧
        strs h' !! c_str c = None ∧
        queue_size (Some q) h' = Ret (Z.of_nat (length cs) - 1) h')).
Proof.
  assert (∀ h q cs buf bufsize r h',
     queue_repr h q cs →
     queue_remove_head (Some q) buf bufsize h = Ret r h' →
     (fst r = false ↔ cs = []) ∧
     (fst r = false → h' = h ∧ snd r = buf) ∧
     (fst r = true →
      ∃ c cs', cs = c :: cs' ∧ queue_repr h' q cs' ∧
        nodes h' !! c_node c = None ∧
        strs h' !! c_str c = None ∧
        queue_size (Some q) h' = Ret (Z.of_nat (length cs) - 1) h')) as Hret.
  { intros h q cs buf bufsize r h' Hr Hrun.
    pose proof (remove_head_run h q cs buf bufsize Hr) as H.
    destruct cs as [|c cs].
    - rewrite Hrun in H. injection H as -> ->. by repeat split.
    - destruct (copy_out buf bufsize _) as [r'|];
        [|rewrite Hrun in H; discriminate H].
      destruct H as (h1 & H & Hr' & Hn & Hs). rewrite Hrun in H.
      injection H as -> ->. cbn [fst snd].
      split; [done|]. split; [done|].
      intros _. exists c, cs. do 4 (split; [done|]).
      destruct Hr' as [Hq _]. unfold queue_size.
      erewrite load_q_eq by exact Hq. cbn [size length]. f_equal. lia. }
  split; [done|]. split; [|exact Hret].
  intros h q cs buf bufsize Hr Hv.
  assert (∃ r h', queue_remove_head (Some q) buf bufsize h = Ret r h')
    as (r & h' & Hrun).
  { pose proof (remove_head_run h q cs buf bufsize Hr) as H.
    destruct cs as [|c cs]; [by eauto|].
    destruct Hv as [Hnil|Hv]; [done|].
    assert (∃ r, copy_out buf bufsize (c_bytes c ++ [x00]) = Some r) as [r Hco].
    { destruct buf as [b|]; [|by eexists].
      destruct Hv as (H1 & H2 & H3).
      pose proof Hr as (_ & _ & _ & _ & Hstr).
      apply Forall_cons in Hstr as [[_ Hnul] _].
      rewrite copy_out_some by done. by eexists. }
    rewrite Hco in H. destruct H as (h' & H & _). by eauto. }
  exists r, h'. split; [exact Hrun|]. by eapply Hret.
Qed.

Lemma remove_head_fails_iff_empty_witness :
  removes_head ab_heap 1%positive [ab_cell] (Some [x01; x01; x01]) 3 ∧
  ((fst (true, Some [x61; x62; x00]) = false ↔ [ab_cell] = []) ∧
   (fst (true, Some [x61; x62; x00]) = false →
    empty_queue_heap = ab_heap ∧
    snd (true, Some [x61; x62; x00]) = Some [x01; x01; x01]) ∧
   (fst (true, Some [x61; x62; x00]) = true →
    ∃ c cs', [ab_cell] = c :: cs' ∧ queue_repr empty_queue_heap 1%positive cs' ∧
      nodes empty_queue_heap !! c_node c = None ∧
      strs empty_queue_heap !! c_str c = None ∧
      queue_size (Some 1%positive) empty_queue_heap
        = Ret (Z.of_nat (length [ab_cell]) - 1) empty_queue_heap)).
Proof.
  destruct remove_head_fails_iff_empty as (_ & Hdoes & Hret).
  split.
  - apply (Hdoes ab_heap 1%positive [ab_cell] (Some [x01; x01; x01]) 3).
    + sample_repr.
    + right. split; [lia | split; [simpl; lia | reflexivity]].
  - apply (Hret ab_heap 1%positive [ab_cell] (Some [x01; x01; x01]) 3).
    + sample_repr.
    + vm_compute. reflexivity.
Defined.

(** C3 as it is worded fails: on a queue that is not empty, with a buffer
    of four bytes and [bufsize = 0], the call is not one of the two the
    claim allows.  It does not return [false] and it does not succeed: it
    runs off the end of the buffer. *)
Lemma remove_head_nonempty_no_success :
  queue_repr ab_heap 1%positive [ab_cell] ∧
  [ab_cell] ≠ [] ∧
  queue_remove_head (Some 1%positive) (Some [x01; x01; x01; x01]) 0 ab_heap
    = Crash ∧
  ¬ removes_head ab_heap 1%positive [ab_cell] (Some [x01; x01; x01; x01]) 0.
Proof.
  split; [sample_repr|]. split; [done|].
  assert (queue_remove_head (Some 1%positive) (Some [x01; x01; x01; x01]) 0
            ab_heap = Crash) as E
    by (vm_compute; reflexivity).
  split; [exact E|].
  intros (r & h' & H & _).
  pose proof (eq_trans (eq_sym E) H) as X. discriminate X.
Qed.

(** C4. Every operation keeps the queue well formed, and a well-formed
    queue has the structural invariants: the count is zero exactly when
    the head is null, the head is null exactly when the tail is null, and
    along the chain [next] and [prev] undo each other. *)
Theorem operations_preserve_invariants :
  (∀ h q h', queue_new h = Ret (Some q) h' →
     queue_inv h' q ∧ struct_inv h' q) ∧
  (∀ h q s b h', queue_inv h q → queue_insert_head (Some q) s h = Ret b h' →
     queue_inv h' q ∧ struct_inv h' q) ∧
  (∀ h q s b h', queue_inv h q → queue_insert_tail (Some q) s h = Ret b h' →
     queue_inv h' q ∧ struct_inv h' q) ∧
  (∀ h q buf bufsize r h', queue_inv h q →
     queue_remove_head (Some q) buf bufsize h = Ret r h' →
     queue_inv h' q ∧ struct_inv h' q) ∧
  (∀ h q cs fuel, queue_repr h q cs → (length cs ≤ fuel)%nat →
     ∃ h', queue_reverse fuel (Some q) h = Ret tt h' ∧
           queue_inv h' q ∧ struct_inv h' q).
Proof.
  assert (∀ h q cs, queue_repr h q cs → queue_inv h q ∧ struct_inv h q) as Hinv.
  { intros h q cs Hr. split; [by exists cs | by eapply repr_struct_inv]. }
  split; [|split; [|split; [|split]]].
  - intros h q h' H. pose proof (queue_new_run h) as Hn. rewrite H in Hn.
    destruct Hn as [Hr _]. by eapply Hinv.
  - intros h q s b h' [cs Hr] H.
    pose proof (insert_head_run h q cs s Hr) as Hn. rewrite H in Hn.
    destruct b.
    + destruct Hn as (nl & sl & _ & _ & _ & Hr'). by eapply Hinv.
    + eapply Hinv, repr_same_mem; eauto.
  - intros h q s b h' [cs Hr] H.
    pose proof (insert_tail_run h q cs s Hr) as Hn. rewrite H in Hn.
    destruct b.
    + destruct Hn as (nl & sl & _ & _ & _ & Hr'). by eapply Hinv.
    + eapply Hinv, repr_same_mem; eauto.
  - intros h q buf bufsize r h' [cs Hr] H.
    pose proof (remove_head_run h q cs buf bufsize Hr) as Hn.
    destruct cs as [|c cs].
    + rewrite H in Hn. injection Hn as _ ->. by eapply Hinv.
    + destruct (copy_out buf bufsize _) as [r'|].
      * destruct Hn as (h1 & Hn & Hr' & _). rewrite H in Hn.
        injection Hn as _ ->. by eapply Hinv.
      * rewrite H in Hn. discriminate Hn.
  - intros h q cs fuel Hr Hfuel.
    destruct (reverse_run h q cs fuel Hr Hfuel) as (h' & H & Hr' & _).
    exists h'. split; [done|]. by eapply Hinv.
Qed.

Lemma operations_preserve_invariants_witness :
  (queue_inv fresh_heap 1%positive ∧ struct_inv fresh_heap 1%positive) ∧
  (queue_inv (heap_after (queue_insert_head (Some 1%positive) [x63; x00]) ab_heap)
     1%positive ∧
   struct_inv (heap_after (queue_insert_head (Some 1%positive) [x63; x00]) ab_heap)
     1%positive) ∧
  (queue_inv abc_heap 1%positive ∧ struct_inv abc_heap 1%positive) ∧
  (queue_inv (heap_after (queue_remove_head (Some 1%positive) None 0) ab_heap)
     1%positive ∧
   struct_inv (heap_after (queue_remove_head (Some 1%positive) None 0) ab_heap)
     1%positive) ∧
  (∃ h', queue_reverse 2 (Some 1%positive) abc_heap = Ret tt h' ∧
         queue_inv h' 1%positive ∧ struct_inv h' 1%positive).
Proof.
  destruct operations_preserve_invariants as (Hnew & Hhead & Htail & Hrem & Hrev).
  split; [|split; [|split; [|split]]].
  - apply (Hnew empty_heap 1%positive fresh_heap). vm_compute. reflexivity.
  - apply (Hhead ab_heap 1%positive [x63; x00] true).
    + exists [ab_cell]. sample_repr.
    + vm_compute. reflexivity.
  - apply (Htail ab_heap 1%positive [x63; x00] true).
    + exists [ab_cell]. sample_repr.
    + vm_compute. reflexivity.
  - apply (Hrem ab_heap 1%positive None 0 (true, None)).
    + exists [ab_cell]. sample_repr.
    + vm_compute. reflexivity.
  - apply (Hrev abc_heap 1%positive abc_cells 2%nat).
    + sample_repr.
    + simpl. lia.
Defined.

(** C5. On a fresh queue, after three successful tail insertions of [a],
    [b] and [c], three removals into buffers that are large enough hand
    back [a], then [b], then [c]. *)
Theorem fifo_order h0 q h1 a b c h2 h3 h4 ba bb bc na nb nc :
  queue_new h0 = Ret (Some q) h1 →
  queue_insert_tail (Some q) a h1 = Ret true h2 →
  queue_insert_tail (Some q) b h2 = Ret true h3 →
  queue_insert_tail (Some q) c h3 = Ret true h4 →
  Z.of_nat (length (cstring a)) < na ≤ Z.of_nat (length ba) → na < size_max →
  Z.of_nat (length (cstring b)) < nb ≤ Z.of_nat (length bb) → nb < size_max →
  Z.of_nat (length (cstring c)) < nc ≤ Z.of_nat (length bc) → nc < size_max →
  ∃ ba' bb' bc' h5 h6 h7,
    queue_remove_head (Some q) (Some ba) na h4 = Ret (true, Some ba') h5 ∧
    queue_remove_head (Some q) (Some bb) nb h5 = Ret (true, Some bb') h6 ∧
    queue_remove_head (Some q) (Some bc) nc h6 = Ret (true, Some bc') h7 ∧
    cstring ba' = cstring a ∧ cstring bb' = cstring b ∧ cstring bc' = cstring c.
Proof.
  intros Hnew Ha Hb Hc Hna Hna' Hnb Hnb' Hnc Hnc'.
  pose proof (queue_new_run h0) as H1. rewrite Hnew in H1. destruct H1 as [Hr1 _].
  pose proof (insert_tail_run h1 q _ a Hr1) as H2. rewrite Ha in H2.
  destruct H2 as (n1 & s1 & _ & _ & _ & Hr2).
  pose proof (insert_tail_run h2 q _ b Hr2) as H3. rewrite Hb in H3.
  destruct H3 as (n2 & s2 & _ & _ & _ & Hr3).
  pose proof (insert_tail_run h3 q _ c Hr3) as H4. rewrite Hc in H4.
  destruct H4 as (n3 & s3 & _ & _ & _ & Hr4).
  cbn [app] in Hr4.
  pose proof (remove_head_run h4 q _ (Some ba) na Hr4) as H5. cbn beta iota in H5.
  rewrite copy_out_some in H5 by (apply cstring_no_nul || lia).
  destruct H5 as (h5 & H5 & Hr5 & _).
  pose proof (remove_head_run h5 q _ (Some bb) nb Hr5) as H6. cbn beta iota in H6.
  rewrite copy_out_some in H6 by (apply cstring_no_nul || lia).
  destruct H6 as (h6 & H6 & Hr6 & _).
  pose proof (remove_head_run h6 q _ (Some bc) nc Hr6) as H7. cbn beta iota in H7.
  rewrite copy_out_some in H7 by (apply cstring_no_nul || lia).
  destruct H7 as (h7 & H7 & Hr7 & _).
  cbn [c_bytes] in *.
  eexists _, _, _, h5, h6, h7.
  split; [exact H5|]. split; [exact H6|]. split; [exact H7|].
  rewrite !cstring_copy by apply cstring_no_nul.
  rewrite !take_ge by lia. done.
Qed.

Lemma fifo_order_witness :
  ∃ ba' bb' bc' h5 h6 h7,
    queue_remove_head (Some 1%positive) (Some [x01; x01]) 2 fifo_heap3
      = Ret (true, Some ba') h5 ∧
    queue_remove_head (Some 1%positive) (Some [x01; x01]) 2 h5
      = Ret (true, Some bb') h6 ∧
    queue_remove_head (Some 1%positive) (Some [x01; x01]) 2 h6
      = Ret (true, Some bc') h7 ∧
    cstring ba' = cstring [x61; x00] ∧ cstring bb' = cstring [x62; x00] ∧
    cstring bc' = cstring [x63; x00].
Proof.
  apply (fifo_order empty_heap 1%positive fresh_heap
           [x61; x00] [x62; x00] [x63; x00] fifo_heap1 fifo_heap2 fifo_heap3).
  - vm_compute. reflexivity.
  - vm_compute. reflexivity.
  - vm_compute. reflexivity.
  - vm_compute. reflexivity.
  - simpl. lia.
  - reflexivity.
  - simpl. lia.
  - reflexivity.
  - simpl. lia.
  - reflexivity.
Defined.

(** C6. On any well-formed queue, a successful [queue_insert_head] of [s]
    followed at once by [queue_remove_head] into a buffer with room for
    [strlen s + 1] bytes or more hands back [s] in full, and the queue is
    what it was before the two calls. *)
Theorem insert_head_remove_head_roundtrip h q cs s h1 b bufsize :
  queue_repr h q cs →
  queue_insert_head (Some q) s h = Ret true h1 →
  Z.of_nat (length (cstring s)) + 1 ≤ bufsize →
  bufsize ≤ Z.of_nat (length b) → bufsize < size_max →
  ∃ b' h2,
    queue_remove_head (Some q) (Some b) bufsize h1 = Ret (true, Some b') h2 ∧
    cstring b' = cstring s ∧
    strlen s = Some (length (cstring s)) ∧
    queue_repr h2 q cs.
Proof.
  intros Hr Hins H1 H2 H3.
  pose proof (insert_head_run h q cs s Hr) as Hi. rewrite Hins in Hi.
  destruct Hi as (nl & sl & [n Hn] & _ & _ & Hr1).
  pose proof (remove_head_run h1 q _ (Some b) bufsize Hr1) as Hrm.
  cbn beta iota in Hrm. cbn [c_bytes] in Hrm.
  rewrite copy_out_some in Hrm by (apply cstring_no_nul || lia).
  destruct Hrm as (h2 & Hrm & Hr2 & _).
  eexists _, h2. split; [exact Hrm|].
  split; [|split; [|done]].
  - rewrite cstring_copy by apply cstring_no_nul. apply take_ge. lia.
  - destruct (strlen_split s n Hn) as (r & _ & Hlen). by rewrite Hlen.
Qed.

Lemma insert_head_remove_head_roundtrip_witness :
  ∃ b' h2,
    queue_remove_head (Some 1%positive) (Some [x01; x01; x01]) 2
      (heap_after (queue_insert_head (Some 1%positive) [x63; x00]) ab_heap)
      = Ret (true, Some b') h2 ∧
    cstring b' = cstring [x63; x00] ∧
    strlen [x63; x00] = Some (length (cstring [x63; x00])) ∧
    queue_repr h2 1%positive [ab_cell].
Proof.
  apply (insert_head_remove_head_roundtrip ab_heap 1%positive [ab_cell]
           [x63; x00]).
  - sample_repr.
  - vm_compute. reflexivity.
  - simpl. lia.
  - simpl. lia.
  - reflexivity.
Defined.

(** C7. A fresh queue filled by tail insertions of [x1 .. xn] and then
    reversed gives, on [n] removals from the head into buffers that are
    large enough, the strings [xn .. x1]. *)
Theorem reverse_reverses_order h0 q h1 xs h2 fuel cap :
  queue_new h0 = Ret (Some q) h1 →
  insert_tail_all (Some q) xs h1 = Ret true h2 →
  (length xs ≤ fuel)%nat →
  Forall (λ x, (length (cstring x) < cap)%nat) xs →
  Z.of_nat cap < size_max →
  ∃ h3 h4,
    queue_reverse fuel (Some q) h2 = Ret tt h3 ∧
    remove_all (length xs) (Some q) cap h3 = Ret (reverse (cstring <$> xs)) h4.
Proof.
  intros Hnew Hins Hfuel Hcap Hmax.
  pose proof (queue_new_run h0) as H1. rewrite Hnew in H1. destruct H1 as [Hr1 _].
  destruct (insert_tail_all_run xs h1 q [] h2 Hr1 Hins) as (cs & Hr2 & Hc).
  cbn [app] in Hr2.
  assert (length cs = length xs) as Hlen.
  { apply (f_equal length) in Hc. unfold contents in Hc.
    by rewrite !length_fmap in Hc. }
  destruct (reverse_run h2 q cs fuel Hr2) as (h3 & Hrev & Hr3 & _); [lia|].
  destruct (remove_all_run cap (reverse cs) h3 q Hr3) as (h4 & Hrm & _).
  - apply Forall_reverse. apply Forall_forall. intros c' Hc'.
    rewrite Forall_forall in Hcap.
    assert (c_bytes c' ∈ cstring <$> xs) as Hin.
    { rewrite <- Hc. by apply list_elem_of_fmap_2. }
    apply list_elem_of_fmap in Hin as (x & -> & Hx). by apply Hcap.
  - done.
  - exists h3, h4. split; [done|].
    rewrite length_reverse, Hlen in Hrm. rewrite Hrm.
    unfold contents. by rewrite fmap_reverse, <- Hc.
Qed.

Lemma reverse_reverses_order_witness :
  ∃ h3 h4,
    queue_reverse 3 (Some 1%positive) fifo_heap3 = Ret tt h3 ∧
    remove_all (length [[x61; x00]; [x62; x00]; [x63; x00]]) (Some 1%positive) 4 h3
      = Ret (reverse (cstring <$> [[x61; x00]; [x62; x00]; [x63; x00]])) h4.
Proof.
  apply (reverse_reverses_order empty_heap 1%positive fresh_heap
           [[x61; x00]; [x62; x00]; [x63; x00]] fifo_heap3 3 4).
  - vm_compute. reflexivity.
  - vm_compute. reflexivity.
  - simpl. lia.
  - repeat constructor.
  - reflexivity.
Defined.

(** C8. Reversing a well-formed queue twice gives back the queue it was:
    the same elements, in the same order from head to tail. *)
Theorem reverse_twice_restores h q cs fuel :
  queue_repr h q cs → (length cs ≤ fuel)%nat →
  ∃ h1 h2,
    queue_reverse fuel (Some q) h = Ret tt h1 ∧
    queue_reverse fuel (Some q) h1 = Ret tt h2 ∧
    queue_repr h1 q (reverse cs) ∧
    queue_repr h2 q cs.
Proof.
  intros Hr Hfuel.
  destruct (reverse_run h q cs fuel Hr Hfuel) as (h1 & H1 & Hr1 & _).
  destruct (reverse_run h1 q (reverse cs) fuel Hr1) as (h2 & H2 & Hr2 & _);
    [by rewrite length_reverse|].
  rewrite reverse_involutive in Hr2. by exists h1, h2.
Qed.

Lemma reverse_twice_restores_witness :
  ∃ h1 h2,
    queue_reverse 2 (Some 1%positive) abc_heap = Ret tt h1 ∧
    queue_reverse 2 (Some 1%positive) h1 = Ret tt h2 ∧
    queue_repr h1 1%positive (reverse abc_cells) ∧
    queue_repr h2 1%positive abc_cells.
Proof.
  apply (reverse_twice_restores abc_heap 1%positive abc_cells 2).
  - sample_repr.
  - simpl. lia.
Defined.

(** C9. After any sequence of head insertions, tail insertions and head
    removals on a fresh queue, [queue_size] returns the number of the
    insertions that succeeded minus the number of the removals that
    succeeded; and a sequence of calls with NUL-terminated strings and
    adequate buffers runs to its end. *)
Theorem size_counts_inserts_minus_removes h0 q h1 os :
  queue_new h0 = Ret (Some q) h1 →
  (∀ bs h2, exec_ops (Some q) os h1 = Ret bs h2 →
     queue_size (Some q) h2 = Ret (balance os bs) h2) ∧
  (Forall valid_op os → ∃ bs h2, exec_ops (Some q) os h1 = Ret bs h2).
Proof.
  intros Hnew.
  pose proof (queue_new_run h0) as H1. rewrite Hnew in H1. destruct H1 as [Hr1 _].
  pose proof (exec_ops_run os h1 q [] Hr1) as H.
  split.
  - intros bs h2 Hrun. rewrite Hrun in H. destruct H as (cs & [Hq _] & Hlen).
    unfold queue_size. erewrite load_q_eq by exact Hq. cbn [size].
    f_equal. cbn [length] in Hlen. lia.
  - intros Hv. destruct (exec_ops (Some q) os h1) as [bs h2| |]; [by eauto|done|done].
Qed.

Lemma size_counts_inserts_minus_removes_witness :
  (∀ bs h2, exec_ops (Some 1%positive) sample_ops fresh_heap = Ret bs h2 →
     queue_size (Some 1%positive) h2 = Ret (balance sample_ops bs) h2) ∧
  (Forall valid_op sample_ops →
   ∃ bs h2, exec_ops (Some 1%positive) sample_ops fresh_heap = Ret bs h2).
Proof.
  apply (size_counts_inserts_minus_removes empty_heap 1%positive fresh_heap
           sample_ops).
  vm_compute. reflexivity.
Defined.

(** C10. [queue_reverse] changes nothing but links: every character block
    is where it was and holds what it held, no allocation is asked for,
    the same elements exist and each points to the same string, the same
    queue structures exist and each has the same count. *)
Theorem reverse_changes_links_only fuel q h h' :
  queue_reverse fuel q h = Ret tt h' →
  reverse_frame h h' ∧
  dom (nodes h') = dom (nodes h) ∧
  dom (strs h') = dom (strs h) ∧
  dom (queues h') = dom (queues h).
Proof.
  intros H. pose proof (reverse_frame_run fuel q h) as Hf. rewrite H in Hf.
  split; [done|]. destruct Hf as (Hs & _ & Hn & Hq).
  split; [by eapply fmap_lookup_dom|]. split; [by rewrite Hs|].
  by eapply fmap_lookup_dom.
Qed.

Lemma reverse_changes_links_only_witness :
  reverse_frame abc_heap (heap_after (queue_reverse 2 (Some 1%positive)) abc_heap) ∧
  dom (nodes (heap_after (queue_reverse 2 (Some 1%positive)) abc_heap))
    = dom (nodes abc_heap) ∧
  dom (strs (heap_after (queue_reverse 2 (Some 1%positive)) abc_heap))
    = dom (strs abc_heap) ∧
  dom (queues (heap_after (queue_reverse 2 (Some 1%positive)) abc_heap))
    = dom (queues abc_heap).
Proof.
  apply (reverse_changes_links_only 2 (Some 1%positive) abc_heap).
  vm_compute. reflexivity.
Defined.

(** * Further properties of the code *)

(** ** The copy into the buffer, whenever it goes through *)

Lemma size_sub_range a b : 0 ≤ size_sub a b < size_max.
Proof. unfold size_sub, size_max. apply Z.mod_pos_bound. lia. Qed.

Lemma copy_out_inv b n l r :
  x00 ∉ l → copy_out (Some b) n (l ++ [x00]) = Some r →
  ∃ b', r = Some b' ∧
    b' = resize (Z.to_nat (size_sub n 1)) x00 l
         ++ x00 :: drop (S (Z.to_nat (size_sub n 1))) b ∧
    (Z.to_nat (size_sub n 1) < length b)%nat.
Proof.
  intros Hl. unfold copy_out.
  pose proof (size_sub_range n 1) as Hk.
  set (k := Z.to_nat (size_sub n 1)).
  assert (size_sub n 1 = Z.of_nat k) as -> by lia.
  destruct (Z_lt_le_dec (Z.of_nat (length b)) (Z.of_nat k)) as [Hlt|Hle].
  { by rewrite strncpy_overflow. }
  rewrite strncpy_spec by (done || lia).
  unfold store_byte.
  rewrite length_app, length_resize, length_drop.
  destruct (Z.of_nat k <? Z.of_nat (k + (length b - k))) eqn:Hb;
    [|by rewrite andb_false_r].
  apply Z.ltb_lt in Hb.
  assert ((0 <=? Z.of_nat k) = true) as -> by (apply Z.leb_le; lia).
  cbn [andb]. intros [= <-]. eexists. split; [done|]. split; [|lia].
  rewrite Nat2Z.id.
  rewrite insert_app_r_alt by (rewrite length_resize; lia).
  rewrite length_resize, Nat.sub_diag.
  destruct (drop k b) as [|d r] eqn:Hd.
  - apply (f_equal length) in Hd. rewrite length_drop in Hd. simpl in Hd. lia.
  - cbn. do 2 f_equal.
    replace (S k) with (k + 1)%nat by lia. by rewrite <- drop_drop, Hd.
Qed.

Lemma copied_length b l k :
  (k < length b)%nat →
  length (resize k x00 l ++ x00 :: drop (S k) b) = length b.
Proof.
  intros Hk. rewrite length_app, length_resize. cbn [length].
  rewrite length_drop. lia.
Qed.

(** ** Walking the chain *)

Lemma first_ptr_is_Some cs d : cs ≠ [] → first_ptr cs d ≠ None.
Proof. by destruct cs. Qed.

Lemma last_ptr_is_Some cs d : cs ≠ [] → last_ptr cs d ≠ None.
Proof.
  destruct (snoc_case cs) as [->|(cs0 & c & ->)]; [done|].
  intros _. by rewrite last_ptr_app.
Qed.

Lemma follow_next_dll N p cs n k :
  dll N p cs n → (k ≤ length cs)%nat →
  follow next N k (first_ptr cs n) = first_ptr (drop k cs) n.
Proof.
  revert p k. induction cs as [|c cs IH]; intros p k Hd Hk.
  - cbn in Hk. by replace k with 0%nat by lia.
  - destruct k as [|k]; [done|]. destruct Hd as [Hc Hd].
    cbn [first_ptr follow drop]. rewrite Hc. cbn [next].
    apply (IH _ _ Hd). cbn in Hk. lia.
Qed.

Lemma follow_prev_dll N cs : ∀ p n k,
  dll N p cs n → (k ≤ length cs)%nat →
  follow prev N k (last_ptr cs p) = last_ptr (take (length cs - k) cs) p.
Proof.
  induction cs as [|c cs IH] using rev_ind; intros p n k Hd Hk.
  - cbn in Hk. by replace k with 0%nat by lia.
  - rewrite length_app in *. cbn [length] in *.
    destruct k as [|k].
    { by rewrite Nat.sub_0_r, take_ge by (rewrite length_app; cbn; lia). }
    apply dll_app in Hd as [Hd [Hc _]].
    rewrite last_ptr_app. cbn [last_ptr follow]. rewrite Hc. cbn [prev].
    rewrite (IH _ _ _ Hd) by lia.
    rewrite take_app_le by lia. do 2 f_equal. lia.
Qed.

Lemma dll_allocated_node N p cs n l :
  dll N p cs n → l ∈ c_node <$> cs → is_Some (N !! l).
Proof.
  intros Hd (c & -> & Hc)%list_elem_of_fmap. by eapply dll_allocated.
Qed.

(** For any number of steps: beyond the end of the chain a walk stays at
    null. *)
Lemma follow_null f N k : follow f N k None = None.
Proof. by destruct k. Qed.

Lemma follow_next_in N p cs k l :
  dll N p cs None → follow next N k (first_ptr cs None) = Some l →
  l ∈ c_node <$> cs.
Proof.
  revert p k. induction cs as [|c cs IH]; intros p k Hd Hf.
  - cbn in Hf. by rewrite follow_null in Hf.
  - rewrite fmap_cons. apply elem_of_cons.
    destruct k as [|k]; [left; cbn in Hf; congruence|]. right.
    destruct Hd as [Hc Hd]. cbn [first_ptr follow] in Hf.
    rewrite Hc in Hf. cbn [next] in Hf. by eapply IH.
Qed.

Lemma follow_prev_in N cs : ∀ n k l,
  dll N None cs n → follow prev N k (last_ptr cs None) = Some l →
  l ∈ c_node <$> cs.
Proof.
  induction cs as [|c cs IH] using rev_ind; intros n k l Hd Hf.
  - cbn in Hf. by rewrite follow_null in Hf.
  - rewrite fmap_app. apply elem_of_app.
    apply dll_app in Hd as [Hd [Hc _]].
    rewrite last_ptr_app in Hf. cbn [last_ptr] in Hf.
    destruct k as [|k].
    { right. cbn in Hf. injection Hf as <-. cbn. apply elem_of_cons. by left. }
    left. cbn [follow] in Hf. rewrite Hc in Hf. cbn [prev] in Hf.
    by eapply IH.
Qed.

Lemma repr_chain_shape h q cs : queue_repr h q cs → chain_shape h q (length cs).
Proof.
  intros (Hq & Hdll & Hnd & Hsd & Hstr).
  eexists. split; [exact Hq|]. cbn [head tail size].
  split; [done|].
  split; [|split; [|split; [|split; [|split; [|split; [|split]]]]]].
  5:{ intros k l Hf. eapply dll_allocated_node; [exact Hdll|].
      by eapply follow_next_in. }
  5:{ intros k l Hf. eapply dll_allocated_node; [exact Hdll|].
      by eapply follow_prev_in. }
  - rewrite (follow_next_dll _ _ _ _ _ Hdll) by done. by rewrite drop_all.
  - intros k Hk. rewrite (follow_next_dll _ _ _ _ _ Hdll) by lia.
    apply first_ptr_is_Some. intros Hnil%(f_equal length).
    rewrite length_drop in Hnil. cbn in Hnil. lia.
  - rewrite (follow_prev_dll _ _ _ _ _ Hdll) by done. by rewrite Nat.sub_diag.
  - intros k Hk. rewrite (follow_prev_dll _ _ _ _ _ Hdll) by lia.
    apply last_ptr_is_Some. intros Hnil%(f_equal length).
    rewrite length_take in Hnil. cbn in Hnil. lia.
  - intros l e Hl He. destruct cs as [|c cs]; [done|].
    cbn in Hl. injection Hl as <-. destruct Hdll as [Hc _].
    rewrite Hc in He. by injection He as <-.
  - intros l e Hl He.
    destruct (snoc_case cs) as [->|(cs0 & c & ->)]; [done|].
    rewrite last_ptr_app in Hl. cbn in Hl. injection Hl as <-.
    apply dll_app in Hdll as [_ [Hc _]]. rewrite Hc in He. by injection He as <-.
Qed.

(** ** Two heaps with the same queue *)

Lemma dll_agree N N' p cs n c :
  dll N p cs n → dll N' p cs n → c ∈ cs → N' !! c_node c = N !! c_node c.
Proof.
  revert p. induction cs as [|c' cs IH]; intros p Hd Hd' Hc.
  - by apply elem_of_nil in Hc.
  - destruct Hd as [H1 Hd], Hd' as [H1' Hd'].
    apply elem_of_cons in Hc as [->|Hc]; [congruence | by eapply IH].
Qed.

Lemma repr_same_queue h h' q cs :
  queue_repr h q cs → queue_repr h' q cs →
  (∀ l, l ≠ q → queues h' !! l = queues h !! l) →
  (∀ l, l ∉ c_node <$> cs → nodes h' !! l = nodes h !! l) →
  (∀ l, l ∉ c_str <$> cs → strs h' !! l = strs h !! l) →
  same_mem h h'.
Proof.
  intros (Hq & Hdll & _ & _ & Hstr) (Hq' & Hdll' & _ & _ & Hstr') Fq Fn Fs.
  split; [|split]; apply map_eq; intros l.
  - destruct (decide (l = q)) as [->|Hne]; [congruence | by apply Fq].
  - destruct (decide (l ∈ c_node <$> cs)) as [Hin|Hout]; [|by apply Fn].
    apply list_elem_of_fmap in Hin as (c & -> & Hc). by eapply dll_agree.
  - destruct (decide (l ∈ c_str <$> cs)) as [Hin|Hout]; [|by apply Fs].
    apply list_elem_of_fmap in Hin as (c & -> & Hc).
    rewrite Forall_forall in Hstr, Hstr'.
    destruct (Hstr c Hc) as [-> _]. by destruct (Hstr' c Hc) as [-> _].
Qed.

(** ** [queue_free] on a well-formed queue *)

Lemma free_queue_eq l h Q :
  queues h !! l = Some Q → free_queue (Some l) h = Ret tt (set_queues (delete l) h).
Proof. unfold free_queue. by intros ->. Qed.

Lemma lookup_delete_cons {A} (m : gmap loc A) x xs l :
  (if decide (l ∈ xs) then None else delete x m !! l)
  = if decide (l ∈ x :: xs) then None else m !! l.
Proof.
  destruct (decide (l = x)) as [->|Hne].
  - rewrite lookup_delete_eq.
    rewrite (decide_True (P := x ∈ x :: xs)) by (apply elem_of_cons; by left).
    by destruct (decide (x ∈ xs)).
  - rewrite lookup_delete_ne by done.
    destruct (decide (l ∈ xs)) as [Hin|Hout].
    + by rewrite decide_True by (apply elem_of_cons; by right).
    + rewrite decide_False; [done|].
      rewrite elem_of_cons. by intros [?|?].
Qed.

Lemma free_loop_full cs : ∀ fuel h p,
  dll (nodes h) p cs None →
  NoDup (c_node <$> cs) → NoDup (c_str <$> cs) →
  Forall (owns_string (strs h)) cs →
  match free_loop fuel (first_ptr cs None) h with
  | Ret _ h' =>
    queues h' = queues h ∧ oracle h' = oracle h ∧
    (∀ l, nodes h' !! l
          = if decide (l ∈ c_node <$> cs) then None else nodes h !! l) ∧
    (∀ l, strs h' !! l
          = if decide (l ∈ c_str <$> cs) then None else strs h !! l)
  | Crash => False
  | OutOfFuel => (fuel < length cs)%nat
  end.
Proof.
  induction cs as [|c cs IH]; intros fuel h p Hdll Hnd Hsd Hstr.
  - by destruct fuel.
  - destruct fuel as [|fuel]; [cbn; lia|].
    cbn [first_ptr free_loop].
    destruct Hdll as [Hc Hdll].
    apply Forall_cons in Hstr as [[Hcs Hnul] Hstr].
    rewrite fmap_cons in Hnd, Hsd.
    apply NoDup_cons in Hnd as [Hcn Hnd]. apply NoDup_cons in Hsd as [Hcsn Hsd].
    mstep. mstep. mstep. mstep.
    match goal with |- context [free_loop fuel ?p ?h1] =>
      opose proof (IH fuel h1 (Some (c_node c)) _ _ _ _) as H
    end.
    { hsimpl. by apply dll_delete. }
    { done. }
    { done. }
    { hsimpl. by apply owns_delete. }
    hsimpl.
    match goal with |- context [free_loop fuel ?p ?h1] =>
      destruct (free_loop fuel p h1) as [u h'| |]
    end; [|done|cbn [length]; lia].
    destruct H as (Hq & Ho & Hn & Hs). hsimpl.
    split; [done|]. split; [done|]. split.
    + intros l. rewrite Hn, fmap_cons. apply lookup_delete_cons.
    + intros l. rewrite Hs, fmap_cons. apply lookup_delete_cons.
Qed.

Lemma queue_free_full h q cs fuel :
  queue_repr h q cs →
  match queue_free fuel (Some q) h with
  | Ret _ h' =>
    queues h' = delete q (queues h) ∧ oracle h' = oracle h ∧
    (∀ l, nodes h' !! l
          = if decide (l ∈ c_node <$> cs) then None else nodes h !! l) ∧
    (∀ l, strs h' !! l
          = if decide (l ∈ c_str <$> cs) then None else strs h !! l)
  | Crash => False
  | OutOfFuel => (fuel < length cs)%nat
  end.
Proof.
  intros (Hq & Hdll & Hnd & Hsd & Hstr).
  unfold queue_free. mstep.
  pose proof (free_loop_full cs fuel h None Hdll Hnd Hsd Hstr) as Hloop.
  unfold bind at 1.
  destruct (free_loop fuel (first_ptr cs None) h) as [u h1| |]; [|done|done].
  destruct Hloop as (Hq1 & Ho1 & Hn1 & Hs1).
  assert (queues h1 !! q = Some
            (mk_queue (first_ptr cs None) (last_ptr cs None) (Z.of_nat (length cs))))
    as Hq1' by (by rewrite Hq1).
  mstep. mstep. mstep.
  erewrite free_queue_eq by lookup_tac. hsimpl.
  split; [|done]. by rewrite delete_insert_eq, Hq1.
Qed.

(** ** [queue_new], with what it allocates *)

Lemma queue_new_full h :
  match queue_new h with
  | Ret (Some q) h' =>
    fst (pop_oracle (oracle h)) = true ∧
    queue_repr h' q [] ∧ queues h !! q = None ∧
    queues h' = <[q := mk_queue None None 0]> (queues h) ∧
    nodes h' = nodes h ∧ strs h' = strs h ∧
    oracle h' = snd (pop_oracle (oracle h))
  | Ret None h' =>
    fst (pop_oracle (oracle h)) = false ∧ same_mem h h' ∧
    oracle h' = snd (pop_oracle (oracle h))
  | _ => False
  end.
Proof.
  unfold queue_new. unfold bind at 1. rewrite malloc_queue_eq. cbv zeta.
  pose proof (fresh_queues h) as Hf.
  destruct (pop_oracle (oracle h)) as [[] o]; hsimpl; [|done].
  mstep. mstep. mstep. unfold ret. hsimpl.
  split; [done|]. split; [|done].
  repeat split; try done; try apply NoDup_nil_2.
  hsimpl. by rewrite lookup_insert_eq.
Qed.

(** ** The footprint of the queue *)

Lemma footprint_new h0 q h1 :
  queue_new h0 = Ret (Some q) h1 → footprint h0 h1 q [].
Proof.
  intros H. pose proof (queue_new_full h0) as Hn. rewrite H in Hn.
  destruct Hn as (_ & _ & Hq & Hq' & Hn & Hs & _).
  split; [done|]. split; [|split].
  - intros l Hl. by rewrite Hq', lookup_insert_ne.
  - intros l. by rewrite Hn.
  - intros l. by rewrite Hs.
Qed.

Lemma footprint_same_mem h0 h h' q cs :
  same_mem h h' → footprint h0 h q cs → footprint h0 h' q cs.
Proof.
  intros (Hq & Hn & Hs). unfold footprint. by rewrite Hq, Hn, Hs.
Qed.

Lemma footprint_lookup {A} (m0 m m' : gmap loc A) (xs xs' : list loc) :
  (∀ l, m0 !! l = if decide (l ∈ xs) then None else m !! l) →
  (∀ l, l ∉ xs → l ∉ xs' → m' !! l = m !! l) →
  (∀ l, l ∈ xs' → l ∉ xs → m !! l = None) →
  (∀ l, l ∈ xs → l ∉ xs' → m' !! l = None) →
  ∀ l, m0 !! l = if decide (l ∈ xs') then None else m' !! l.
Proof.
  intros H0 Hout Hnew Hold l. rewrite H0.
  destruct (decide (l ∈ xs)) as [Hx|Hx], (decide (l ∈ xs')) as [Hx'|Hx'];
    try done.
  - symmetry. by apply Hold.
  - by apply Hnew.
  - symmetry. by apply Hout.
Qed.

Lemma footprint_step h0 h h' q cs cs' :
  footprint h0 h q cs → queue_delta q cs cs' h h' → footprint h0 h' q cs'.
Proof.
  intros (Hq0 & Hq & Hn & Hs) ((Fq & Fn & Fs) & Nn & No & Sn & So).
  split; [done|]. split; [|split].
  - intros l Hl. by rewrite Fq, Hq.
  - by eapply footprint_lookup.
  - by eapply footprint_lookup.
Qed.

Lemma footprint_free h0 h h' q cs fuel :
  queue_repr h q cs → footprint h0 h q cs →
  queue_free fuel (Some q) h = Ret tt h' → same_mem h0 h'.
Proof.
  intros Hr (Hq0 & Hq & Hn & Hs) Hfree.
  pose proof (queue_free_full h q cs fuel Hr) as H. rewrite Hfree in H.
  destruct H as (Hq' & _ & Hn' & Hs').
  split; [|split]; apply map_eq; intros l.
  - rewrite Hq'. destruct (decide (l = q)) as [->|Hne].
    + by rewrite lookup_delete_eq.
    + rewrite lookup_delete_ne by done. by apply Hq.
  - by rewrite Hn', Hn.
  - by rewrite Hs', Hs.
Qed.

(** ** Any call on a well-formed queue *)

Ltac mem_norm H :=
  repeat first
    [ rewrite fmap_cons in H | rewrite fmap_app in H
    | rewrite fmap_reverse in H | rewrite elem_of_cons in H
    | rewrite elem_of_app in H | rewrite elem_of_reverse in H
    | rewrite elem_of_nil in H ];
  cbn [c_node c_str fmap list_fmap] in H.

(** An address that is in one chain and not in the other. *)
Ltac mem_tac :=
  let l := fresh "l" in
  let H1 := fresh in
  let H2 := fresh in
  intros l H1 H2; mem_norm H1; mem_norm H2;
  intuition (subst; done).

Lemma delta_same_mem q cs h h' : same_mem h h' → queue_delta q cs cs h h'.
Proof.
  intros (Hq & Hn & Hs). split; [|by repeat split].
  unfold frame_outside. by rewrite Hq, Hn, Hs.
Qed.

Lemma delta_refl q cs h : queue_delta q cs cs h h.
Proof. by apply delta_same_mem. Qed.

Lemma other_queue_step q cs cs' h h' q2 cs2 :
  queue_delta q cs cs' h h' →
  q2 ≠ q → apart cs cs2 → queue_repr h q2 cs2 →
  queue_repr h' q2 cs2 ∧ apart cs' cs2.
Proof.
  intros ((Fq & Fn & Fs) & Nn & _ & Sn & _) Hne [An As]
         (Hq & Hdll & Hnd & Hsd & Hstr).
  assert (apart cs' cs2) as [An' As'].
  { split; intros l Hl Hl2.
    - destruct (decide (l ∈ c_node <$> cs)) as [Hin|Hout]; [by eapply An|].
      apply list_elem_of_fmap in Hl2 as (c & -> & Hc).
      destruct (dll_allocated _ _ _ _ _ Hdll Hc) as [e He].
      rewrite (Nn _ Hl Hout) in He. discriminate He.
    - destruct (decide (l ∈ c_str <$> cs)) as [Hin|Hout]; [by eapply As|].
      apply list_elem_of_fmap in Hl2 as (c & -> & Hc).
      rewrite Forall_forall in Hstr. destruct (Hstr c Hc) as [He _].
      rewrite (Sn _ Hl Hout) in He. discriminate He. }
  split; [|done].
  split; [|split; [|split; [|split]]]; try done.
  - by rewrite Fq.
  - eapply dll_frame; [exact Hdll|]. intros c Hc.
    apply elem_of_c_node in Hc. apply Fn; intros Hin; [by eapply An | by eapply An'].
  - rewrite Forall_forall in Hstr. apply Forall_forall. intros c Hc.
    destruct (Hstr c Hc) as [He Hnul]. split; [|done].
    apply elem_of_c_str in Hc. rewrite Fs; [done | |]; intros Hin;
      [by eapply As | by eapply As'].
Qed.

Lemma exec_call_full h q cs c :
  queue_repr h q cs →
  match exec_call (Some q) c h with
  | Ret r h' =>
    ∃ cs', queue_repr h' q cs' ∧
      model_step (contents cs) c r (contents cs') ∧
      queue_delta q cs cs' h h'
  | _ => True
  end.
Proof.
  intros Hr. destruct c as [s|s|buf bufsize| |fuel]; cbn [exec_call].
  - pose proof (insert_head_full h q cs s Hr) as H. unfold bind at 1.
    destruct (queue_insert_head (Some q) s h) as [[] h'| |]; try done.
    + destruct H as (nl & sl & (_ & Hnl & Hsl & Hr') & Hfr & _).
      eexists. split; [exact Hr'|]. split; [apply ms_head_ok|].
      split; [exact Hfr|]. repeat split; mem_tac.
    + destruct H as [Hm _]. exists cs.
      split; [by eapply repr_same_mem|]. split; [apply ms_head_failed|].
      by apply delta_same_mem.
  - pose proof (insert_tail_full h q cs s Hr) as H. unfold bind at 1.
    destruct (queue_insert_tail (Some q) s h) as [[] h'| |]; try done.
    + destruct H as (nl & sl & (_ & Hnl & Hsl & Hr') & Hfr & _).
      eexists. split; [exact Hr'|]. split.
      * unfold contents. rewrite fmap_app. apply ms_tail_ok.
      * split; [exact Hfr|]. repeat split; mem_tac.
    + destruct H as [Hm _]. exists cs.
      split; [by eapply repr_same_mem|]. split; [apply ms_tail_failed|].
      by apply delta_same_mem.
  - pose proof (remove_head_full h q cs buf bufsize Hr) as H.
    destruct cs as [|c cs].
    + erewrite bind_eq by exact H. cbn. exists [].
      split; [done|]. split; [apply ms_remove_empty | apply delta_refl].
    + destruct (copy_out buf bufsize _) as [r|] eqn:Hco.
      2:{ by erewrite bind_crash by exact H. }
      destruct H as (h' & H & (Hr' & Hn & Hs) & Hfr & _).
      erewrite bind_eq by exact H. cbn.
      exists cs. split; [done|]. split.
      * destruct buf as [b|].
        -- pose proof Hr as (_ & _ & _ & _ & Hstr).
           apply Forall_cons in Hstr as [[_ Hnul] _].
           destruct (copy_out_inv _ _ _ _ Hnul Hco) as (b' & -> & -> & Hk).
           apply ms_remove_copy.
           ++ by apply copied_length.
           ++ by apply cstring_copy.
        -- cbn in Hco. injection Hco as <-. apply ms_remove_null.
      * split; [exact Hfr|]. repeat split; mem_tac.
  - pose proof Hr as [Hq _]. unfold queue_size.
    erewrite bind_eq by (by apply load_q_eq). cbn.
    exists cs. split; [done|]. split; [|apply delta_refl].
    replace (length cs) with (length (contents cs))
      by (unfold contents; by rewrite length_fmap).
    apply ms_size.
  - pose proof (reverse_full h q cs fuel Hr) as H. unfold bind at 1.
    destruct (queue_reverse fuel (Some q) h) as [[] h'| |]; try done.
    destruct H as (Hr' & Hfr & _). cbn.
    exists (reverse cs). split; [done|]. split.
    + unfold contents. rewrite fmap_reverse. apply ms_reverse.
    + split; [exact Hfr|]. repeat split; mem_tac.
Qed.

Lemma exec_calls_full calls : ∀ h q cs,
  queue_repr h q cs →
  match exec_calls (Some q) calls h with
  | Ret rs h' =>
    ∃ cs', queue_repr h' q cs' ∧
      model_run (contents cs) calls rs (contents cs') ∧
      (∀ h0, footprint h0 h q cs → footprint h0 h' q cs') ∧
      (∀ q2 cs2, q2 ≠ q → apart cs cs2 → queue_repr h q2 cs2 →
                 queue_repr h' q2 cs2 ∧ apart cs' cs2)
  | _ => True
  end.
Proof.
  induction calls as [|c calls IH]; intros h q cs Hr; cbn [exec_calls].
  - exists cs. split; [done|]. split; [apply mr_nil | done].
  - pose proof (exec_call_full h q cs c Hr) as H. unfold bind at 1.
    destruct (exec_call (Some q) c h) as [r h1| |]; [|done|done].
    destruct H as (cs1 & Hr1 & Hm1 & Hd1).
    specialize (IH h1 q cs1 Hr1). unfold bind at 1.
    destruct (exec_calls (Some q) calls h1) as [rs h2| |]; [|done|done].
    destruct IH as (cs2 & Hr2 & Hm2 & Hf2 & Ho2).
    exists cs2. split; [done|]. split; [by eapply mr_cons|]. split.
    + intros h0 Hf. eapply Hf2, footprint_step; eauto.
    + intros q2 cs' Hne Hap Hr'.
      destruct (other_queue_step _ _ _ _ _ _ _ Hd1 Hne Hap Hr') as [Hr1' Hap1].
      by apply Ho2.
Qed.

(** ** The properties *)

Lemma heap_eq h h' : same_mem h h' → oracle h' = oracle h → h' = h.
Proof.
  destruct h, h'. intros (Hq & Hn & Hs) Ho. cbn in *. by subst.
Qed.

(** X1. On a well-formed queue and a NUL-terminated string,
    [queue_insert_head] returns [true] exactly when the two allocations
    it asks for succeed; the queue then has a copy of the string in front
    of the elements it had, and when it returns [false] memory is as it
    was. *)
Theorem insert_head_prepends h q cs s :
  queue_repr h q cs → is_Some (strlen s) →
  ∃ h', queue_insert_head (Some q) s h = Ret (two_allocs (oracle h)) h' ∧
    if two_allocs (oracle h)
    then ∃ c, c_bytes c = cstring s ∧ queue_repr h' q (c :: cs)
    else same_mem h h'.
Proof.
  intros Hr [n Hn]. pose proof (insert_head_full h q cs s Hr) as H.
  destruct (queue_insert_head (Some q) s h) as [[] h'| |];
    [| |congruence|done].
  - destruct H as (nl & sl & (_ & _ & _ & Hr') & _ & -> & _).
    exists h'. split; [done|]. by exists (mk_cell nl sl (cstring s)).
  - destruct H as [Hm ->]. by exists h'.
Qed.

Lemma insert_head_prepends_witness :
  ∃ h', queue_insert_head (Some 1%positive) [x63; x00] ab_heap
          = Ret (two_allocs (oracle ab_heap)) h' ∧
    if two_allocs (oracle ab_heap)
    then ∃ c, c_bytes c = cstring [x63; x00] ∧
              queue_repr h' 1%positive (c :: [ab_cell])
    else same_mem ab_heap h'.
Proof.
  apply (insert_head_prepends ab_heap 1%positive [ab_cell] [x63; x00]).
  - sample_repr.
  - by eexists.
Defined.

(** X2. On a well-formed queue and a NUL-terminated string,
    [queue_insert_tail] returns [true] exactly when the two allocations
    it asks for succeed; the queue then has a copy of the string after
    the elements it had, and when it returns [false] memory is as it
    was. *)
Theorem insert_tail_appends h q cs s :
  queue_repr h q cs → is_Some (strlen s) →
  ∃ h', queue_insert_tail (Some q) s h = Ret (two_allocs (oracle h)) h' ∧
    if two_allocs (oracle h)
    then ∃ c, c_bytes c = cstring s ∧ queue_repr h' q (cs ++ [c])
    else same_mem h h'.
Proof.
  intros Hr [n Hn]. pose proof (insert_tail_full h q cs s Hr) as H.
  destruct (queue_insert_tail (Some q) s h) as [[] h'| |];
    [| |cbn in H; congruence|done].
  - destruct H as (nl & sl & (_ & _ & _ & Hr') & _ & -> & _).
    exists h'. split; [done|]. by exists (mk_cell nl sl (cstring s)).
  - destruct H as [Hm ->]. by exists h'.
Qed.

Lemma insert_tail_appends_witness :
  ∃ h', queue_insert_tail (Some 1%positive) [x63; x00] ab_heap_short
          = Ret (two_allocs (oracle ab_heap_short)) h' ∧
    if two_allocs (oracle ab_heap_short)
    then ∃ c, c_bytes c = cstring [x63; x00] ∧
              queue_repr h' 1%positive ([ab_cell] ++ [c])
    else same_mem ab_heap_short h'.
Proof.
  apply (insert_tail_appends ab_heap_short 1%positive [ab_cell] [x63; x00]).
  - sample_repr.
  - by eexists.
Defined.

(** X3. Calls on one queue leave every other queue alone: a well-formed
    queue that shares no element and no character block with the queue
    the calls are made on is the same queue after them. *)
Theorem calls_leave_other_queues h q cs q2 cs2 calls rs h' :
  queue_repr h q cs → queue_repr h q2 cs2 → q2 ≠ q → apart cs cs2 →
  exec_calls (Some q) calls h = Ret rs h' →
  queue_repr h' q2 cs2.
Proof.
  intros Hr Hr2 Hne Hap Hrun.
  pose proof (exec_calls_full calls h q cs Hr) as H. rewrite Hrun in H.
  destruct H as (cs' & _ & _ & _ & Ho). by apply Ho.
Qed.

Lemma calls_leave_other_queues_witness :
  queue_repr (heap_after (exec_calls (Some 1%positive) sample_calls) two_queues_heap)
    2%positive second_queue_cells.
Proof.
  apply (calls_leave_other_queues two_queues_heap 1%positive first_queue_cells
           2%positive second_queue_cells sample_calls
           [RInserted true; RInserted true; RInserted true; RSize 4;
            RReversed; RRemoved true (Some [x62; x00]); RRemoved true None;
            RSize 2]).
  - sample_repr.
  - sample_repr.
  - done.
  - split; intros l Hl Hl2; vm_compute in Hl, Hl2;
      apply list_elem_of_singleton in Hl, Hl2; congruence.
  - vm_compute. reflexivity.
Defined.

(** X4. Last in, first out at the head: on a fresh queue, after three
    successful head insertions of [a], [b] and [c], three removals into
    buffers that are large enough hand back [c], then [b], then [a]. *)
Theorem lifo_order h0 q h1 a b c h2 h3 h4 ba bb bc na nb nc :
  queue_new h0 = Ret (Some q) h1 →
  queue_insert_head (Some q) a h1 = Ret true h2 →
  queue_insert_head (Some q) b h2 = Ret true h3 →
  queue_insert_head (Some q) c h3 = Ret true h4 →
  Z.of_nat (length (cstring c)) < na ≤ Z.of_nat (length ba) → na < size_max →
  Z.of_nat (length (cstring b)) < nb ≤ Z.of_nat (length bb) → nb < size_max →
  Z.of_nat (length (cstring a)) < nc ≤ Z.of_nat (length bc) → nc < size_max →
  ∃ ba' bb' bc' h5 h6 h7,
    queue_remove_head (Some q) (Some ba) na h4 = Ret (true, Some ba') h5 ∧
    queue_remove_head (Some q) (Some bb) nb h5 = Ret (true, Some bb') h6 ∧
    queue_remove_head (Some q) (Some bc) nc h6 = Ret (true, Some bc') h7 ∧
    cstring ba' = cstring c ∧ cstring bb' = cstring b ∧ cstring bc' = cstring a.
Proof.
  intros Hnew Ha Hb Hc Hna Hna' Hnb Hnb' Hnc Hnc'.
  pose proof (queue_new_run h0) as H1. rewrite Hnew in H1. destruct H1 as [Hr1 _].
  pose proof (insert_head_run h1 q _ a Hr1) as H2. rewrite Ha in H2.
  destruct H2 as (n1 & s1 & _ & _ & _ & Hr2).
  pose proof (insert_head_run h2 q _ b Hr2) as H3. rewrite Hb in H3.
  destruct H3 as (n2 & s2 & _ & _ & _ & Hr3).
  pose proof (insert_head_run h3 q _ c Hr3) as H4. rewrite Hc in H4.
  destruct H4 as (n3 & s3 & _ & _ & _ & Hr4).
  pose proof (remove_head_run h4 q _ (Some ba) na Hr4) as H5. cbn beta iota in H5.
  rewrite copy_out_some in H5 by (apply cstring_no_nul || lia).
  destruct H5 as (h5 & H5 & Hr5 & _).
  pose proof (remove_head_run h5 q _ (Some bb) nb Hr5) as H6. cbn beta iota in H6.
  rewrite copy_out_some in H6 by (apply cstring_no_nul || lia).
  destruct H6 as (h6 & H6 & Hr6 & _).
  pose proof (remove_head_run h6 q _ (Some bc) nc Hr6) as H7. cbn beta iota in H7.
  rewrite copy_out_some in H7 by (apply cstring_no_nul || lia).
  destruct H7 as (h7 & H7 & Hr7 & _).
  cbn [c_bytes] in *.
  eexists _, _, _, h5, h6, h7.
  split; [exact H5|]. split; [exact H6|]. split; [exact H7|].
  rewrite !cstring_copy by apply cstring_no_nul.
  rewrite !take_ge by lia. done.
Qed.

Lemma lifo_order_witness :
  ∃ ba' bb' bc' h5 h6 h7,
    queue_remove_head (Some 1%positive) (Some [x01; x01]) 2 lifo_heap3
      = Ret (true, Some ba') h5 ∧
    queue_remove_head (Some 1%positive) (Some [x01; x01]) 2 h5
      = Ret (true, Some bb') h6 ∧
    queue_remove_head (Some 1%positive) (Some [x01; x01]) 2 h6
      = Ret (true, Some bc') h7 ∧
    cstring ba' = cstring [x63; x00] ∧ cstring bb' = cstring [x62; x00] ∧
    cstring bc' = cstring [x61; x00].
Proof.
  apply (lifo_order empty_heap 1%positive fresh_heap
           [x61; x00] [x62; x00] [x63; x00] lifo_heap1 lifo_heap2 lifo_heap3).
  - vm_compute. reflexivity.
  - vm_compute. reflexivity.
  - vm_compute. reflexivity.
  - vm_compute. reflexivity.
  - simpl. lia.
  - reflexivity.
  - simpl. lia.
  - reflexivity.
  - simpl. lia.
  - reflexivity.
Defined.

(** X5. What [queue_remove_head] leaves in the buffer, byte by byte: the
    characters of the removed string up to position [bufsize - 2], NULs
    from the end of the string up to and with position [bufsize - 1]
    ([strncpy] pads, so the first [bufsize] bytes are all overwritten),
    and the bytes the buffer had from position [bufsize] on. *)
Theorem remove_head_fills_buffer h q c cs b bufsize :
  queue_repr h q (c :: cs) →
  1 ≤ bufsize → bufsize ≤ Z.of_nat (length b) → bufsize < size_max →
  ∃ h',
    queue_remove_head (Some q) (Some b) bufsize h
      = Ret (true, Some (copied b bufsize (c_bytes c))) h' ∧
    ∀ i : nat,
      copied b bufsize (c_bytes c) !! i =
      if decide (Z.of_nat i < bufsize - 1 ∧ (i < length (c_bytes c))%nat)
      then c_bytes c !! i
      else if decide (Z.of_nat i < bufsize) then Some x00
      else b !! i.
Proof.
  intros Hr H1 H2 H3.
  pose proof (remove_head_run h q (c :: cs) (Some b) bufsize Hr) as H.
  cbn beta iota in H.
  pose proof Hr as (_ & _ & _ & _ & Hstr).
  apply Forall_cons in Hstr as [[_ Hnul] _].
  rewrite copy_out_some in H by done.
  destruct H as (h' & H & _).
  replace (S (Z.to_nat (bufsize - 1))) with (Z.to_nat bufsize) in H by lia.
  exists h'. split; [exact H|].
  intros i. unfold copied.
  set (k := Z.to_nat (bufsize - 1)).
  assert (Z.to_nat bufsize = S k) as -> by lia.
  destruct (decide (Z.of_nat i < bufsize - 1 ∧ (i < length (c_bytes c))%nat))
    as [[Hi1 Hi2]|Hn].
  { rewrite lookup_app_l by (rewrite length_resize; lia).
    apply lookup_resize; lia. }
  destruct (decide (Z.of_nat i < bufsize)) as [Hi|Hi].
  - destruct (decide (i < k)%nat) as [Hik|Hik].
    + rewrite lookup_app_l by (rewrite length_resize; lia).
      apply lookup_resize_new; lia.
    + rewrite lookup_app_r by (rewrite length_resize; lia).
      rewrite length_resize. by replace (i - k)%nat with 0%nat by lia.
  - rewrite lookup_app_r by (rewrite length_resize; lia).
    rewrite length_resize.
    replace (i - k)%nat with (S (i - S k)) by lia.
    rewrite lookup_cons, lookup_drop. f_equal. lia.
Qed.

Lemma remove_head_fills_buffer_witness :
  ∃ h',
    queue_remove_head (Some 1%positive) (Some [x01; x01; x01; x01; x01]) 4 ab_heap
      = Ret (true, Some (copied [x01; x01; x01; x01; x01] 4 (c_bytes ab_cell))) h' ∧
    ∀ i : nat,
      copied [x01; x01; x01; x01; x01] 4 (c_bytes ab_cell) !! i =
      if decide (Z.of_nat i < 4 - 1 ∧ (i < length (c_bytes ab_cell))%nat)
      then c_bytes ab_cell !! i
      else if decide (Z.of_nat i < 4) then Some x00
      else [x01; x01; x01; x01; x01] !! i.
Proof.
  apply (remove_head_fills_buffer ab_heap 1%positive ab_cell []
           [x01; x01; x01; x01; x01] 4).
  - sample_repr.
  - lia.
  - simpl. lia.
  - reflexivity.
Defined.

(** X6. With [bufsize = 0] and a buffer that is not null, removing from a
    queue that is not empty writes past the end of the buffer, however
    large the buffer is: [bufsize - 1] wraps around to the largest
    [size_t] and [strncpy] writes that many bytes. *)
Theorem remove_head_bufsize_zero_overruns h q c cs b :
  queue_repr h q (c :: cs) → Z.of_nat (length b) < size_max - 1 →
  queue_remove_head (Some q) (Some b) 0 h = Crash.
Proof.
  intros Hr Hb.
  pose proof (remove_head_full h q (c :: cs) (Some b) 0 Hr) as H.
  cbn beta iota in H.
  assert (copy_out (Some b) 0 (c_bytes c ++ [x00]) = None) as Hco.
  { unfold copy_out.
    assert (size_sub 0 1 = size_max - 1) as -> by reflexivity.
    by rewrite strncpy_overflow. }
  by rewrite Hco in H.
Qed.

Lemma remove_head_bufsize_zero_overruns_witness :
  queue_remove_head (Some 1%positive) (Some [x01; x01; x01; x01]) 0 ab_heap = Crash.
Proof.
  apply (remove_head_bufsize_zero_overruns ab_heap 1%positive ab_cell []).
  - sample_repr.
  - reflexivity.
Defined.

(** X7. On a queue with no element or one element [queue_reverse]
    returns at its guard and changes nothing at all, whatever the fuel. *)
Theorem reverse_short_queue_unchanged h q cs fuel :
  queue_repr h q cs → (length cs ≤ 1)%nat →
  queue_reverse fuel (Some q) h = Ret tt h.
Proof.
  intros (Hq & Hdll & _) Hlen. unfold queue_reverse.
  destruct cs as [|c [|c2 cs]]; [| |cbn in Hlen; lia]; hsimpl.
  - by mstep.
  - destruct Hdll as [Hc _]. mstep. by mstep.
Qed.

Lemma reverse_short_queue_unchanged_witness :
  queue_reverse 0 (Some 1%positive) ab_heap = Ret tt ab_heap.
Proof.
  apply (reverse_short_queue_unchanged ab_heap 1%positive [ab_cell] 0).
  - sample_repr.
  - simpl. lia.
Defined.

(** X8. Reversing twice gives back the very same heap: every link, the
    head and the tail are what they were. *)
Theorem reverse_twice_same_heap h q cs fuel :
  queue_repr h q cs → (length cs ≤ fuel)%nat →
  ∃ h1, queue_reverse fuel (Some q) h = Ret tt h1 ∧
        queue_reverse fuel (Some q) h1 = Ret tt h.
Proof.
  intros Hr Hfuel.
  pose proof (reverse_full h q cs fuel Hr) as H1.
  destruct (queue_reverse fuel (Some q) h) as [[] h1| |]; [|done|lia].
  destruct H1 as (Hr1 & (Fq1 & Fn1 & Fs1) & Hs1 & Ho1).
  exists h1. split; [done|].
  pose proof (reverse_full h1 q (reverse cs) fuel Hr1) as H2.
  destruct (queue_reverse fuel (Some q) h1) as [[] h2| |];
    [|done|rewrite length_reverse in H2; lia].
  destruct H2 as (Hr2 & (Fq2 & Fn2 & Fs2) & Hs2 & Ho2).
  rewrite reverse_involutive in Hr2, Fn2, Fs2.
  f_equal. apply heap_eq; [|congruence].
  apply (repr_same_queue h h2 q cs Hr Hr2).
  - intros l Hl. by rewrite Fq2, Fq1.
  - intros l Hl.
    assert (l ∉ c_node <$> reverse cs) as Hl'
      by (by rewrite fmap_reverse, elem_of_reverse).
    by rewrite Fn2, Fn1.
  - intros l Hl. by rewrite Hs2, Hs1.
Qed.

Lemma reverse_twice_same_heap_witness :
  ∃ h1, queue_reverse 2 (Some 1%positive) abc_heap = Ret tt h1 ∧
        queue_reverse 2 (Some 1%positive) h1 = Ret tt abc_heap.
Proof.
  apply (reverse_twice_same_heap abc_heap 1%positive abc_cells 2).
  - sample_repr.
  - simpl. lia.
Defined.

(** X9. A successful [queue_insert_head] followed at once by
    [queue_remove_head] leaves memory as it was before the two calls:
    the element and the character block of the insertion are freed, the
    links and the count of the queue are back. *)
Theorem insert_head_remove_head_same_memory h q cs s h1 buf bufsize r h2 :
  queue_repr h q cs →
  queue_insert_head (Some q) s h = Ret true h1 →
  queue_remove_head (Some q) buf bufsize h1 = Ret r h2 →
  fst r = true ∧ same_mem h h2.
Proof.
  intros Hr Hins Hrem.
  pose proof (insert_head_full h q cs s Hr) as Hi. rewrite Hins in Hi.
  destruct Hi as (nl & sl & (_ & Hnl & Hsl & Hr1) & (Fq1 & Fn1 & Fs1) & _).
  pose proof (remove_head_full h1 q _ buf bufsize Hr1) as H.
  cbn beta iota in H.
  destruct (copy_out buf bufsize _) as [r'|]; [|congruence].
  destruct H as (h2' & H & (Hr2 & Hn2 & Hs2) & (Fq2 & Fn2 & Fs2) & _).
  rewrite Hrem in H. injection H as -> <-. split; [done|].
  cbn [c_node c_str] in *.
  apply (repr_same_queue h h2 q cs Hr Hr2).
  - intros l Hl. by rewrite Fq2, Fq1.
  - intros l Hl. destruct (decide (l = nl)) as [->|Hne]; [congruence|].
    assert (l ∉ c_node <$> mk_cell nl sl (cstring s) :: cs) as Hl'
      by (rewrite fmap_cons; by apply not_elem_of_cons).
    by rewrite Fn2, Fn1.
  - intros l Hl. destruct (decide (l = sl)) as [->|Hne]; [congruence|].
    assert (l ∉ c_str <$> mk_cell nl sl (cstring s) :: cs) as Hl'
      by (rewrite fmap_cons; by apply not_elem_of_cons).
    by rewrite Fs2, Fs1.
Qed.

Lemma insert_head_remove_head_same_memory_witness :
  fst (true, @None (list byte)) = true ∧ same_mem ab_heap ab_heap.
Proof.
  apply (insert_head_remove_head_same_memory ab_heap 1%positive [ab_cell]
           [x63; x00]
           (heap_after (queue_insert_head (Some 1%positive) [x63; x00]) ab_heap)
           None 0).
  - sample_repr.
  - vm_compute. reflexivity.
  - vm_compute. reflexivity.
Defined.

(** X10. [queue_free] on a well-formed queue, given the iterations it
    needs, releases the queue structure, every element and every
    character block of the queue, and touches nothing else: not another
    queue structure, element or block, and no allocation is asked for. *)
Theorem queue_free_releases_queue h q cs fuel :
  queue_repr h q cs → (length cs ≤ fuel)%nat →
  ∃ h', queue_free fuel (Some q) h = Ret tt h' ∧
    queues h' !! q = None ∧
    (∀ c, c ∈ cs → nodes h' !! c_node c = None ∧ strs h' !! c_str c = None) ∧
    (∀ l, l ≠ q → queues h' !! l = queues h !! l) ∧
    (∀ l, l ∉ c_node <$> cs → nodes h' !! l = nodes h !! l) ∧
    (∀ l, l ∉ c_str <$> cs → strs h' !! l = strs h !! l) ∧
    oracle h' = oracle h.
Proof.
  intros Hr Hfuel. pose proof (queue_free_full h q cs fuel Hr) as H.
  destruct (queue_free fuel (Some q) h) as [[] h'| |]; [|done|lia].
  destruct H as (Hq & Ho & Hn & Hs). exists h'. split; [done|].
  split; [by rewrite Hq, lookup_delete_eq|].
  split; [|split; [|split; [|split]]]; try done.
  - intros c Hc. rewrite Hn, Hs.
    rewrite decide_True by (by apply elem_of_c_node).
    by rewrite decide_True by (by apply elem_of_c_str).
  - intros l Hl. by rewrite Hq, lookup_delete_ne.
  - intros l Hl. by rewrite Hn, decide_False.
  - intros l Hl. by rewrite Hs, decide_False.
Qed.

Lemma queue_free_releases_queue_witness :
  ∃ h', queue_free 2 (Some 1%positive) abc_heap = Ret tt h' ∧
    queues h' !! 1%positive = None ∧
    (∀ c, c ∈ abc_cells →
          nodes h' !! c_node c = None ∧ strs h' !! c_str c = None) ∧
    (∀ l, l ≠ 1%positive → queues h' !! l = queues abc_heap !! l) ∧
    (∀ l, l ∉ c_node <$> abc_cells → nodes h' !! l = nodes abc_heap !! l) ∧
    (∀ l, l ∉ c_str <$> abc_cells → strs h' !! l = strs abc_heap !! l) ∧
    oracle h' = oracle abc_heap.
Proof.
  apply (queue_free_releases_queue abc_heap 1%positive abc_cells 2).
  - sample_repr.
  - simpl. lia.
Defined.

(** X11. No leak: a queue that is created, used through any sequence of
    calls and then freed leaves memory exactly as it was before
    [queue_new]; [queue_free] returns once its loop is given as many
    iterations as the queue has elements. *)
Theorem create_use_free_leaves_no_trace h0 q h1 calls rs h2 :
  queue_new h0 = Ret (Some q) h1 →
  exec_calls (Some q) calls h1 = Ret rs h2 →
  ∃ n : nat,
    queue_size (Some q) h2 = Ret (Z.of_nat n) h2 ∧
    ∀ fuel, (n ≤ fuel)%nat →
      ∃ h3, queue_free fuel (Some q) h2 = Ret tt h3 ∧ same_mem h0 h3.
Proof.
  intros Hnew Hrun.
  pose proof (queue_new_run h0) as H1. rewrite Hnew in H1. destruct H1 as [Hr1 _].
  pose proof (exec_calls_full calls h1 q [] Hr1) as H. rewrite Hrun in H.
  destruct H as (cs & Hr2 & _ & Hf & _).
  specialize (Hf h0 (footprint_new _ _ _ Hnew)).
  exists (length cs). split.
  - destruct Hr2 as [Hq _]. unfold queue_size. by erewrite load_q_eq by exact Hq.
  - intros fuel Hfuel. pose proof (queue_free_full h2 q cs fuel Hr2) as H.
    destruct (queue_free fuel (Some q) h2) as [[] h3| |] eqn:Hfree; [|done|lia].
    exists h3. split; [done|]. by eapply footprint_free.
Qed.

Lemma create_use_free_leaves_no_trace_witness :
  ∃ n : nat,
    queue_size (Some 1%positive)
      (heap_after (exec_calls (Some 1%positive) sample_calls) fresh_heap)
      = Ret (Z.of_nat n)
          (heap_after (exec_calls (Some 1%positive) sample_calls) fresh_heap) ∧
    ∀ fuel, (n ≤ fuel)%nat →
      ∃ h3, queue_free fuel (Some 1%positive)
              (heap_after (exec_calls (Some 1%positive) sample_calls) fresh_heap)
            = Ret tt h3 ∧ same_mem empty_heap h3.
Proof.
  apply (create_use_free_leaves_no_trace empty_heap 1%positive fresh_heap
           sample_calls
           [RInserted true; RInserted true; RInserted true; RSize 3;
            RReversed; RRemoved true (Some [x62; x00]); RRemoved true None;
            RSize 1]).
  - vm_compute. reflexivity.
  - vm_compute. reflexivity.
Defined.

(** X12. The queue behaves as a list of strings.  Whatever the sequence
    of calls on a well-formed queue, the replies are those of the list:
    an insertion that succeeds puts the string in front or at the end, a
    removal fails on the empty list and otherwise takes the first string
    and copies it, cut to fit, into the buffer, the size is the length
    of the list, and a reversal reverses it. *)
Theorem calls_refine_list_model h q cs calls rs h' :
  queue_repr h q cs →
  exec_calls (Some q) calls h = Ret rs h' →
  ∃ cs', queue_repr h' q cs' ∧
         model_run (contents cs) calls rs (contents cs').
Proof.
  intros Hr Hrun.
  pose proof (exec_calls_full calls h q cs Hr) as H. rewrite Hrun in H.
  destruct H as (cs' & Hr' & Hm & _). by exists cs'.
Qed.

Lemma calls_refine_list_model_witness :
  ∃ cs',
    queue_repr (heap_after (exec_calls (Some 1%positive) sample_calls) fresh_heap)
      1%positive cs' ∧
    model_run (contents [])
      sample_calls
      [RInserted true; RInserted true; RInserted true; RSize 3;
       RReversed; RRemoved true (Some [x62; x00]); RRemoved true None;
       RSize 1]
      (contents cs').
Proof.
  apply (calls_refine_list_model fresh_heap 1%positive [] sample_calls).
  - sample_repr.
  - vm_compute. reflexivity.
Defined.

(** X13. A null handle, as [queue_new] returns it when its allocation
    fails, is safe all along: in any sequence of calls on it the
    insertions and the removals return [false], the size is 0, the
    reversals return at once, and the heap and the buffers at the end
    are what they were; [queue_free] of it does nothing. *)
Theorem null_handle_is_harmless calls h fuel :
  exec_calls None calls h = Ret (null_reply <$> calls) h ∧
  queue_free fuel None h = Ret tt h.
Proof.
  split; [|done].
  induction calls as [|c calls IH]; [done|].
  cbn [exec_calls fmap list_fmap].
  assert (exec_call None c h = Ret (null_reply c) h) as Hc by (by destruct c).
  erewrite bind_eq by exact Hc. by erewrite bind_eq by exact IH.
Qed.

(** X14. The shape of the chain after any sequence of calls on a fresh
    queue: with [n] the count of the queue, [n] steps along [next] from
    the head, and no fewer, end in null, and so do [n] steps along [prev]
    from the tail; every element met on the way is allocated; the head
    has no [prev] and the tail no [next]. *)
Theorem chain_shape_kept h0 q h1 calls rs h2 :
  queue_new h0 = Ret (Some q) h1 →
  exec_calls (Some q) calls h1 = Ret rs h2 →
  ∃ n, chain_shape h2 q n.
Proof.
  intros Hnew Hrun.
  pose proof (queue_new_run h0) as H1. rewrite Hnew in H1. destruct H1 as [Hr1 _].
  pose proof (exec_calls_full calls h1 q [] Hr1) as H. rewrite Hrun in H.
  destruct H as (cs & Hr2 & _). exists (length cs). by apply repr_chain_shape.
Qed.

Lemma chain_shape_kept_witness :
  ∃ n, chain_shape
         (heap_after (exec_calls (Some 1%positive) sample_calls) fresh_heap)
         1%positive n.
Proof.
  apply (chain_shape_kept empty_heap 1%positive fresh_heap sample_calls
           [RInserted true; RInserted true; RInserted true; RSize 3;
            RReversed; RRemoved true (Some [x62; x00]); RRemoved true None;
            RSize 1]).
  - vm_compute. reflexivity.
  - vm_compute. reflexivity.
Defined.

(** X15. [queue_new] returns null exactly when its allocation fails, and
    memory is then as it was.  Otherwise it returns an address that was
    free, an empty queue of size 0 is there, and every other queue
    structure, every element and every character block is as it was. *)
Theorem queue_new_makes_empty_queue h :
  ∃ r h', queue_new h = Ret r h' ∧
    (r = None ↔ fst (pop_oracle (oracle h)) = false) ∧
    match r with
    | None => same_mem h h'
    | Some q =>
      queues h !! q = None ∧ queue_repr h' q [] ∧
      queue_size (Some q) h' = Ret 0 h' ∧
      (∀ l, l ≠ q → queues h' !! l = queues h !! l) ∧
      nodes h' = nodes h ∧ strs h' = strs h
    end.
Proof.
  pose proof (queue_new_full h) as H.
  destruct (queue_new h) as [[q|] h'| |]; [| |done|done].
  - destruct H as (Ho & Hr & Hq & Hq' & Hn & Hs & _).
    exists (Some q), h'. split; [done|]. split.
    { rewrite Ho. by split. }
    split; [done|]. split; [done|]. split; [|split; [|done]].
    + destruct Hr as [Hl _]. unfold queue_size. by erewrite load_q_eq by exact Hl.
    + intros l Hl. by rewrite Hq', lookup_insert_ne.
  - destruct H as (Ho & Hm & _). exists None, h'.
    split; [done|]. split; [by split | done].
Qed.

(** X16. Freeing one queue leaves every other queue alone: a well-formed
    queue that shares no element and no character block with the queue
    that is freed is the same queue afterwards. *)
Theorem free_leaves_other_queues h q cs q2 cs2 fuel h' :
  queue_repr h q cs → queue_repr h q2 cs2 → q2 ≠ q → apart cs cs2 →
  queue_free fuel (Some q) h = Ret tt h' →
  queue_repr h' q2 cs2.
Proof.
  intros Hr (Hq2 & Hdll & Hnd & Hsd & Hstr) Hne [An As] Hfree.
  pose proof (queue_free_full h q cs fuel Hr) as H. rewrite Hfree in H.
  destruct H as (Hq & _ & Hn & Hs).
  split; [|split; [|split; [|split]]]; try done.
  - by rewrite Hq, lookup_delete_ne.
  - eapply dll_frame; [exact Hdll|]. intros c Hc.
    apply elem_of_c_node in Hc. rewrite Hn, decide_False; [done|].
    intros Hin. by eapply An.
  - rewrite Forall_forall in Hstr. apply Forall_forall. intros c Hc.
    destruct (Hstr c Hc) as [He Hnul]. split; [|done].
    apply elem_of_c_str in Hc. rewrite Hs, decide_False; [done|].
    intros Hin. by eapply As.
Qed.

Lemma free_leaves_other_queues_witness :
  queue_repr (heap_after (queue_free 1 (Some 1%positive)) two_queues_heap)
    2%positive second_queue_cells.
Proof.
  apply (free_leaves_other_queues two_queues_heap 1%positive first_queue_cells
           2%positive second_queue_cells 1).
  - sample_repr.
  - sample_repr.
  - done.
  - split; intros l Hl Hl2; vm_compute in Hl, Hl2;
      apply list_elem_of_singleton in Hl, Hl2; congruence.
  - vm_compute. reflexivity.
Defined.
